(** * Recommendation aggregation and ingestion pipeline

    A shallow embedding of the recommendation engine ([recommendForUser],
    [recommendById] and the functions they call) and of the ingestion script
    ([withRetry], [processBatch], [ingestCollection]) of the content
    recommender, with the properties its specification states about them.

    Conventions of the embedding:
    - a JavaScript number that is a count or an index is a [Z] (a [nat] for
      the counters of the ingestion loop, which start at 0 and only grow); a
      score or a duration is an exact rational [Q].  The operations used on
      them (sums of non-negative products, [Math.min], [Math.pow] of 1.5) are
      monotone, so the bounds proved here do not depend on rounding;
    - a title, which the code parses, is a [jsstring]: the list of its
      UTF-16 code units; the other strings (identifiers, type tags, field
      values, messages), which the code only compares and tests for
      emptiness, are [string]s;
    - a thrown exception is the [Throw] case of [result]; [try]/[catch] is
      [try_catch];
    - the document store, the vector index and the embedding service are
      oracles: functions of the history of external calls made so far and
      of the request.  An asynchronous function is a computation in the
      monad [M], which threads that history; the promises of a
      [Promise.all] are run one after the other, left to right;
    - a loop that may run for ever ([while (hasMoreData)]) takes a number of
      iterations it may use and reports [Running] when they are spent. *)

From Stdlib Require Import ZArith QArith Qminmax Lqa Lia Ascii String List.
From stdpp Require Import base list gmap strings pretty.
Import ListNotations.

Local Open Scope string_scope.
Local Open Scope Z_scope.
Local Open Scope list_scope.

(** ** Values *)

(** A UTF-16 code unit, and a string as the sequence of its code units;
    [s.length] is the length of the list. *)
Definition codeunit : Type := N.
Definition jsstring : Type := list codeunit.

Definition code (c : ascii) : codeunit := N_of_ascii c.

(** The string of a literal of ASCII characters. *)
Definition js (s : string) : jsstring := map code (list_ascii_of_string s).

(** An element of an array-valued field of a document: a string (genres of
    movies, platforms of games, ...) or an object with an optional [name]
    (genres of animes, actors, studios, ...).  Objects are compared by
    reference in a JavaScript [Set]; [obj_ref] is that identity. *)
Inductive elem : Type :=
  | EStr (s : string)
  | EObj (obj_ref : nat) (name : option string).

#[global] Instance elem_eq_dec : EqDecision elem.
Proof. solve_decision. Defined.

#[global] Instance elem_countable : Countable elem.
Proof.
  refine (inj_countable'
    (fun e => match e with
              | EStr s => inl s
              | EObj r n => inr (r, n)
              end)
    (fun x => match x with
              | inl s => EStr s
              | inr (r, n) => EObj r n
              end) _).
  intros []; reflexivity.
Defined.

(** A document of one of the content collections.  [doc_id] is [_id]
    rendered by [toString()] ([None] when the field is missing), [doc_alt_id]
    is [id].  A missing array field is the empty list ([obj[field] || []]). *)
Record Doc : Type := mkDoc {
  doc_id : option string;
  doc_alt_id : option string;
  title : option jsstring;
  title_en : option jsstring;
  title_original : option jsstring;
  genres : list elem;
  demographics : list elem;
  themes : list elem;
  studios : list elem;
  production_companies : list elem;
  actors : list elem;
  networks : list elem;
  platforms : list elem;
  developers : list elem;
  publishers : list elem
}.

(** Truthiness of a string: [Boolean(s)]. *)
Definition truthy (s : string) : bool := negb (String.eqb s "").

(** Truthiness of a title: it is not the empty string. *)
Definition nonempty (s : jsstring) : bool := negb (length s =? 0)%nat.

(** [x || y] on optional titles. *)
Definition or_title (x y : option jsstring) : option jsstring :=
  match x with
  | Some s => if nonempty s then x else y
  | None => y
  end.

(** [x || y] on optional strings. *)
Definition or_else (x y : option string) : option string :=
  match x with
  | Some s => if truthy s then x else y
  | None => y
  end.

(** ** SimilarityScorer *)

(** [array.map(item => item[subField]).filter(Boolean)] with
    [subField = 'name']. *)
Definition getFieldArrayValues (array : list elem) : list string :=
  List.filter truthy
    (omap (fun item => match item with
                       | EStr _ => None
                       | EObj _ n => n
                       end) array).

Section CompareArrays.
Context {A : Type} `{Countable A}.

Definition intersectionCount (set1 set2 : gset A) : nat :=
  size (filter (fun item => item ∈ set2) set1).

Definition compareArrays (array1 array2 : list A) : Q :=
  if (length array1 =? 0)%nat || (length array2 =? 0)%nat then 0%Q
  else
    let set1 : gset A := list_to_set array1 in
    let set2 : gset A := list_to_set array2 in
    let inter := Z.of_nat (intersectionCount set1 set2) in
    let unionCount := Z.of_nat (size set1) + Z.of_nat (size set2) - inter in
    if (unionCount =? 0)%Z then 0%Q
    else (inject_Z inter / inject_Z unionCount)%Q.
End CompareArrays.

Definition calculateMetadataSimilarity (content1 content2 : Doc)
    (contentType : string) : Q :=
  let score := (0 + 0.5)%Q in
  let score :=
    if String.eqb contentType "anime" then
      (score
       + compareArrays (getFieldArrayValues (genres content1))
                       (getFieldArrayValues (genres content2)) * 0.15
       + compareArrays (getFieldArrayValues (demographics content1))
                       (getFieldArrayValues (demographics content2)) * 0.15
       + compareArrays (getFieldArrayValues (themes content1))
                       (getFieldArrayValues (themes content2)) * 0.10
       + compareArrays (getFieldArrayValues (studios content1))
                       (getFieldArrayValues (studios content2)) * 0.10)%Q
    else if String.eqb contentType "movie" then
      (score
       + compareArrays (genres content1) (genres content2) * 0.20
       + compareArrays (getFieldArrayValues (production_companies content1))
                       (getFieldArrayValues (production_companies content2)) * 0.10
       + compareArrays (take 3 (getFieldArrayValues (actors content1)))
                       (take 3 (getFieldArrayValues (actors content2))) * 0.20)%Q
    else if String.eqb contentType "tvseries" then
      (score
       + compareArrays (genres content1) (genres content2) * 0.20
       + compareArrays (getFieldArrayValues (networks content1))
                       (getFieldArrayValues (networks content2)) * 0.15
       + compareArrays (getFieldArrayValues (production_companies content1))
                       (getFieldArrayValues (production_companies content2)) * 0.05
       + compareArrays (take 5 (getFieldArrayValues (actors content1)))
                       (take 5 (getFieldArrayValues (actors content2))) * 0.10)%Q
    else if String.eqb contentType "game" then
      (score
       + compareArrays (genres content1) (genres content2) * 0.20
       + compareArrays (platforms content1) (platforms content2) * 0.15
       + compareArrays (developers content1) (developers content2) * 0.10
       + compareArrays (publishers content1) (publishers content2) * 0.05)%Q
    else score in
  Qmin 0.99 score.

(** The lengths of the two arrays of every attribute category the scorer
    compares for [contentType], in the order of the source. *)
Definition comparedLengths (content1 content2 : Doc) (contentType : string)
    : list (nat * nat) :=
  let names f := (length (getFieldArrayValues (f content1)),
                  length (getFieldArrayValues (f content2))) in
  let raw f := (length (f content1 : list elem), length (f content2 : list elem)) in
  if String.eqb contentType "anime" then
    [names genres; names demographics; names themes; names studios]
  else if String.eqb contentType "movie" then
    [raw genres; names production_companies;
     (length (take 3 (getFieldArrayValues (actors content1))),
      length (take 3 (getFieldArrayValues (actors content2))))]
  else if String.eqb contentType "tvseries" then
    [raw genres; names networks; names production_companies;
     (length (take 5 (getFieldArrayValues (actors content1))),
      length (take 5 (getFieldArrayValues (actors content2))))]
  else if String.eqb contentType "game" then
    [raw genres; raw platforms; raw developers; raw publishers]
  else [].

(** ** Exceptions and asynchronous computations *)

(** The fields of a thrown value that the code inspects: [error.message],
    [error.status] and [error.error.type]. *)
Record js_error : Type := mkError {
  err_name : string;
  err_message : option string;
  err_status : option Z;
  err_api_type : option string
}.

Definition TypeError (msg : string) : js_error :=
  mkError "TypeError" (Some msg) None None.
Definition ReferenceError (ident : string) : js_error :=
  mkError "ReferenceError" (Some (ident +:+ " is not defined")) None None.
Definition Error (msg : string) : js_error :=
  mkError "Error" (Some msg) None None.

Inductive result (A : Type) : Type :=
  | Ok (a : A)
  | Throw (e : js_error).
Arguments Ok {A} a.
Arguments Throw {A} e.

(** A key of a [_id] query: the raw string or [new ObjectId(id)]. *)
Inductive mongo_key : Type :=
  | KeyStr (id : string)
  | KeyOid (id : string).

(** The calls that leave the process. *)
Inductive event : Type :=
  | EvConnect
  | EvAggregate (userId : string)
  | EvFindTitle (collection : string) (pattern : jsstring)
      (exclude : option string)
  | EvFindOne (collection : string) (key : mongo_key)
  | EvFindMany (collection : string) (keys : list mongo_key)
  | EvQuery (id : string) (topK : Z)
  | EvCount (collection : string)
  | EvFindPage (collection : string) (skip limit : nat)
  | EvEmbed (texts : list string)
  | EvUpsert (ids : list string)
  | EvSleep (ms : Q).

Definition history : Type := list event.

(** An asynchronous computation: it extends the history of external calls
    and completes with a value or an exception. *)
Definition M (A : Type) : Type := history -> result A * history.

Definition ret {A} (a : A) : M A := fun h => (Ok a, h).
Definition throw {A} (e : js_error) : M A := fun h => (Throw e, h).
Definition bind {A B} (m : M A) (k : A -> M B) : M B :=
  fun h => match m h with
           | (Ok a, h') => k a h'
           | (Throw e, h') => (Throw e, h')
           end.
Definition try_catch {A} (m : M A) (handler : js_error -> M A) : M A :=
  fun h => match m h with
           | (Ok a, h') => (Ok a, h')
           | (Throw e, h') => handler e h'
           end.
Definition lift {A} (r : result A) : M A := fun h => (r, h).

(** An external call: the oracle answers from the history so far, and the
    call is recorded. *)
Definition call {A} (e : event) (oracle : history -> result A) : M A :=
  fun h => (oracle h, h ++ [e]).

Notation "'let*' x := m 'in' k" := (bind m (fun x => k))
  (at level 10, x pattern, m at level 100, k at level 200).

(** [Promise.all(xs.map(f))], run left to right. *)
Fixpoint mapM {A B} (f : A -> M B) (xs : list A) : M (list B) :=
  match xs with
  | [] => ret []
  | x :: xs' => let* y := f x in let* ys := mapM f xs' in ret (y :: ys)
  end.

(** [xs.map(f)] for a callback that may throw. *)
Fixpoint map_result {A B} (f : A -> result B) (xs : list A) : result (list B) :=
  match xs with
  | [] => Ok []
  | x :: xs' =>
      match f x with
      | Throw e => Throw e
      | Ok y => match map_result f xs' with
                | Throw e => Throw e
                | Ok ys => Ok (y :: ys)
                end
      end
  end.

(** [xs.slice(0, end)] for an integer [end]: a negative [end] counts from
    the end of the array. *)
Definition slice0 {A} (xs : list A) (end_ : Z) : list A :=
  if end_ <? 0 then take (Z.to_nat (Z.max (Z.of_nat (length xs) + end_) 0)) xs
  else take (Z.to_nat end_) xs.

(** [Math.ceil(a / b)] for integers [a] and [b > 0]. *)
Definition ceil_div (a b : Z) : Z := - ((- a) / b).

(** ** Data of the recommendation path *)

(** An entry of one of the user's lists; only the id fields are read. *)
Record ListEntry : Type := mkEntry {
  movie_id : option string;
  tvseries_id : option string;
  tv_id : option string;
  anime_id : option string;
  game_id : option string
}.

(** The joined user document ([$lookup] of the four lists); a list that is
    absent is [None]. *)
Record UserLists : Type := mkUserLists {
  movie_watch_lists : option (list ListEntry);
  tvseries_watch_lists : option (list ListEntry);
  anime_lists : option (list ListEntry);
  game_lists : option (list ListEntry)
}.

(** A match of the vector index; [match_type] is [metadata?.type]. *)
Record Match : Type := mkMatch {
  match_id : string;
  match_score : Q;
  match_type : option string
}.

(** A recommendation: [{ id, score, type, data }]. *)
Record Rec : Type := mkRec {
  rec_id : string;
  rec_score : Q;
  rec_type : string;
  rec_data : Doc
}.

(** What [recommendForUser] returns: the empty array, or the object with
    the four buckets and the flattened list. *)
Inductive RecommendationResult : Type :=
  | EmptyArray
  | Buckets (movies tvSeries animes games all : list Rec).

(** The external services of the recommendation path. *)
Record World : Type := mkWorld {
  (** [if (!connected) await mongoClient.connect()] *)
  mongo_connect : history -> result unit;
  (** [db.collection('user-lists').aggregate(pipeline).toArray()] *)
  mongo_aggregate : history -> string -> result (list UserLists);
  (** [collection.find({title ~ pattern, _id != exclude})], before [limit] *)
  mongo_find_title : history -> string -> jsstring -> option string -> result (list Doc);
  (** [collection.findOne({_id: key})] *)
  mongo_findOne : history -> string -> mongo_key -> result (option Doc);
  (** [collection.find({$or: keys}).toArray()] *)
  mongo_find_many : history -> string -> list mongo_key -> result (list Doc);
  (** [new ObjectId(id)] succeeds *)
  objectId_valid : string -> bool;
  (** [index.query({id, topK, includeMetadata})]: [res.matches] *)
  pinecone_query : history -> string -> Z -> result (option (list Match))
}.

(** ** Regular expressions of the title parser

    A backtracking matcher with the priorities of ECMAScript: the
    alternatives of [|] are tried left to right, a greedy star tries one more
    iteration first, a lazy star tries to stop first, and an iteration of a
    star that consumes nothing is rejected.  The patterns have no [u] flag,
    so they see code units; the [i] flag is part of the character
    predicates. *)

Inductive regex : Type :=
  | RChar (p : codeunit -> bool)
  | RSeq (r1 r2 : regex)
  | RAlt (r1 r2 : regex)
  | RStar (greedy : bool) (r : regex)
  | RGroup (r : regex)
  | RBegin
  | REnd.

(** The state of the matcher: the number of code units consumed, the rest of
    the input, and the extent of capture group 1. *)
Record mstate : Type := mkState {
  pos : nat;
  rest : jsstring;
  cap1 : option (nat * nat)
}.

(** The iterations of a star whose body is matched by [body]; [fuel] bounds
    their number by the length of the input, which every iteration
    shortens. *)
Fixpoint star_loop (greedy : bool)
    (body : mstate -> (mstate -> option mstate) -> option mstate)
    (k : mstate -> option mstate) (fuel : nat) (st : mstate)
    : option mstate :=
  match fuel with
  | O => k st
  | S fuel' =>
      let more :=
        body st (fun st' =>
          if (pos st' =? pos st)%nat then None
          else star_loop greedy body k fuel' st') in
      if greedy then
        match more with
        | Some res => Some res
        | None => k st
        end
      else
        match k st with
        | Some res => Some res
        | None => more
        end
  end.

Fixpoint rmatch (r : regex) (st : mstate) (k : mstate -> option mstate)
    : option mstate :=
  match r with
  | RChar p =>
      match rest st with
      | c :: s' =>
          if p c then k (mkState (S (pos st)) s' (cap1 st)) else None
      | [] => None
      end
  | RSeq r1 r2 => rmatch r1 st (fun st' => rmatch r2 st' k)
  | RAlt r1 r2 =>
      match rmatch r1 st k with
      | Some res => Some res
      | None => rmatch r2 st k
      end
  | RStar greedy r1 =>
      star_loop greedy (rmatch r1) k (S (length (rest st))) st
  | RGroup r1 =>
      rmatch r1 st (fun st' =>
        k (mkState (pos st') (rest st') (Some (pos st, pos st'))))
  | RBegin => if (pos st =? 0)%nat then k st else None
  | REnd =>
      match rest st with
      | [] => k st
      | _ :: _ => None
      end
  end.

(** The match object of [str.match(re)] for a regex without the [g] flag:
    [m[0]] and [m[1]]. *)
Record js_match : Type := mkMatchObj {
  m0 : jsstring;
  m1 : option jsstring
}.

(** [str.substring(b, e)] for [b <= e]. *)
Definition slice (input : jsstring) (b e : nat) : jsstring :=
  take (e - b) (drop b input).

(** The first start position at which the pattern matches. *)
Fixpoint exec_from (r : regex) (input : jsstring) (start : nat)
    (remaining : jsstring) : option js_match :=
  match rmatch r (mkState start remaining None) Some with
  | Some st =>
      Some (mkMatchObj
              (slice input start (pos st))
              (match cap1 st with
               | Some (b, e) => Some (slice input b e)
               | None => None
               end))
  | None =>
      match remaining with
      | _ :: remaining' => exec_from r input (S start) remaining'
      | [] => None
      end
  end.

Definition str_match (input : jsstring) (r : regex) : option js_match :=
  exec_from r input 0%nat input.

(** Character classes.  [\s] is WhiteSpace and LineTerminator: U+0009 to
    U+000D, U+0020, U+00A0, U+1680, U+2000 to U+200A, U+2028, U+2029,
    U+202F, U+205F, U+3000 and U+FEFF. *)
Definition is_space (c : codeunit) : bool :=
  ((9 <=? c) && (c <=? 13) || (c =? 32) || (c =? 160) || (c =? 5760)
   || (8192 <=? c) && (c <=? 8202) || (c =? 8232) || (c =? 8233)
   || (c =? 8239) || (c =? 8287) || (c =? 12288) || (c =? 65279))%N.

(** [\d] *)
Definition is_digit (c : codeunit) : bool := ((48 <=? c) && (c <=? 57))%N.

(** [.]: any code unit but a line terminator (U+000A, U+000D, U+2028,
    U+2029). *)
Definition is_dot (c : codeunit) : bool :=
  negb ((c =? 10) || (c =? 13) || (c =? 8232) || (c =? 8233))%N.

(** The canonical form of a code unit under the [i] flag, as far as the
    patterns need it: the patterns name ASCII characters only, a code unit
    from 128 on never canonicalises to one below 128, and below 128 the
    upper case is that of the ASCII letters. *)
Definition upper (c : codeunit) : codeunit :=
  (if (97 <=? c) && (c <=? 122) then c - 32 else c)%N.

(** An ASCII character of a pattern under the [i] flag. *)
Definition ci (c : ascii) : codeunit -> bool :=
  fun d => (upper d =? upper (code c))%N.

(** [[IVXLCDM]] under the [i] flag. *)
Definition is_roman (c : codeunit) : bool :=
  existsb (fun r => (upper c =? code r)%N)
    ["I"; "V"; "X"; "L"; "C"; "D"; "M"]%char.

Definition RPlus (r : regex) : regex := RSeq r (RStar true r).

(** A word, letter by letter, under the [i] flag. *)
Fixpoint RWord (first : ascii) (others : string) : regex :=
  match others with
  | EmptyString => RChar (ci first)
  | String c others' => RSeq (RChar (ci first)) (RWord c others')
  end.

Fixpoint RAlts (r : regex) (rs : list regex) : regex :=
  match rs with
  | [] => r
  | r' :: rs' => RAlt r (RAlts r' rs')
  end.

Fixpoint RSeqs (r : regex) (rs : list regex) : regex :=
  match rs with
  | [] => r
  | r' :: rs' => RSeq r (RSeqs r' rs')
  end.

(** [(?:\s+|-|:)] *)
Definition separator : regex :=
  RAlts (RPlus (RChar is_space)) [RChar (ci "-"); RChar (ci ":")].

(** [(?:\s+|-|:|$)] *)
Definition separator_or_end : regex :=
  RAlts (RPlus (RChar is_space)) [RChar (ci "-"); RChar (ci ":"); REnd].

(** [(?:\d+|[IVXLCDM]+)] *)
Definition numeral : regex :=
  RAlt (RPlus (RChar is_digit)) (RPlus (RChar is_roman)).

(** [(.*?)] *)
Definition lazy_prefix : regex := RGroup (RStar false (RChar is_dot)).

(** [(?:season|part|chapter)] *)
Definition seasonWord : regex :=
  RAlts (RWord "s" "eason") [RWord "p" "art"; RWord "c" "hapter"].

(** [(?:the|a|an|origins|returns|rises|forever|begins)] *)
Definition franchiseWord : regex :=
  RAlts (RWord "t" "he")
    [RWord "a" ""; RWord "a" "n"; RWord "o" "rigins"; RWord "r" "eturns";
     RWord "r" "ises"; RWord "f" "orever"; RWord "b" "egins"].

(** What follows the prefix in each of the three patterns. *)
Definition numberTail : regex := RSeqs separator [numeral; separator_or_end].
Definition seasonTail : regex :=
  RSeqs separator [seasonWord; separator; numeral; separator_or_end].
Definition franchiseTail : regex :=
  RSeqs separator [franchiseWord; separator_or_end].

(** [^(.*?)] followed by [tail]. *)
Definition prefixed (tail : regex) : regex :=
  RSeq RBegin (RSeq lazy_prefix tail).

(** [/^(.*?)(?:\s+|-|:)(?:\d+|[IVXLCDM]+)(?:\s+|-|:|$)/i] *)
Definition numberPattern : regex := prefixed numberTail.

(** [/^(.*?)(?:\s+|-|:)(?:season|part|chapter)(?:\s+|-|:)(?:\d+|[IVXLCDM]+)(?:\s+|-|:|$)/i] *)
Definition seasonPattern : regex := prefixed seasonTail.

(** [/^(.*?)(?:\s+|-|:)(?:the|a|an|origins|returns|rises|forever|begins)(?:\s+|-|:|$)/i] *)
Definition franchisePattern : regex := prefixed franchiseTail.

(** [/\d+|[IVXLCDM]+/i] *)
Definition anyNumeral : regex := numeral.

(** [str.trim()]: white space and line terminators are removed from both
    ends. *)
Fixpoint trimStart (s : jsstring) : jsstring :=
  match s with
  | c :: s' => if is_space c then trimStart s' else s
  | [] => []
  end.

Fixpoint trimEnd (s : jsstring) : jsstring :=
  match s with
  | c :: s' =>
      match trimEnd s' with
      | [] => if is_space c then [] else [c]
      | t => c :: t
      end
  | [] => []
  end.

Definition trim (s : jsstring) : jsstring := trimEnd (trimStart s).

(** ** SequelDetector: the series identity of a title *)

Record SeriesInfo : Type := mkSeriesInfo {
  seriesName : option jsstring;
  seriesNumber : option jsstring
}.

(** [matches[0][1].trim()] throws when group 1 is undefined. *)
Definition group1_trim (m : js_match) : result jsstring :=
  match m1 m with
  | Some g => Ok (trim g)
  | None => Throw (TypeError "Cannot read properties of undefined (reading 'trim')")
  end.

Definition extractSeriesInfo (title : jsstring) : result SeriesInfo :=
  let matches :=
    omap id [str_match title numberPattern;
             str_match title seasonPattern;
             str_match title franchisePattern] in
  match matches with
  | first :: _ =>
      match group1_trim first with
      | Throw e => Throw e
      | Ok name =>
          Ok (mkSeriesInfo (Some name)
                (match str_match title anyNumeral with
                 | Some numberMatch => Some (m0 numberMatch)
                 | None => None
                 end))
      end
  | [] =>
      if (4 <? length title)%nat
      then Ok (mkSeriesInfo (Some title) None)
      else Ok (mkSeriesInfo None None)
  end.

(** ** Shared helpers of the recommendation modules *)

Definition getCollectionName (type : string) : result string :=
  if String.eqb type "movie" then Ok "movies"
  else if String.eqb type "tvseries" then Ok "tv-series"
  else if String.eqb type "anime" then Ok "animes"
  else if String.eqb type "game" then Ok "games"
  else Throw (Error ("Unknown content type: " +:+ type)).

(** [string.replace(/[.*+?^${}()|[\]\\]/g, '\\$&')] *)
Definition is_regex_meta (c : codeunit) : bool :=
  existsb (fun m => (c =? code m)%N)
    ["."; "*"; "+"; "?"; "^"; "$"; "{"; "}"; "("; ")"; "|"; "["; "]"; "\"]%char.

Fixpoint escapeRegex (s : jsstring) : jsstring :=
  match s with
  | [] => []
  | c :: s' =>
      if is_regex_meta c then code "\" :: c :: escapeRegex s'
      else c :: escapeRegex s'
  end.

Definition ensureConnected (w : World) : M unit :=
  call EvConnect (mongo_connect w).

(** [set.has(id)] *)
Definition has (set : gset string) (id : string) : bool :=
  bool_decide (id ∈ set).

(** ** recommendById *)

Definition fetchFromMongoDB (w : World) (id type : string) : M (option Doc) :=
  try_catch
    (let* _ := ensureConnected w in
     let* collection := lift (getCollectionName type) in
     let* doc := call (EvFindOne collection (KeyStr id))
                      (fun h => mongo_findOne w h collection (KeyStr id)) in
     match doc with
     | Some d => ret (Some d)
     | None =>
         (* inner try: conversion and lookup errors are ignored *)
         try_catch
           (if objectId_valid w id
            then call (EvFindOne collection (KeyOid id))
                      (fun h => mongo_findOne w h collection (KeyOid id))
            else throw (Error "input must be a 24 character hex string"))
           (fun _ => ret None)
     end)
    (fun _ => ret None).

Definition getMongoDBDocs (w : World) (pineconeResults : list Match)
    : M (list Rec) :=
  let typed :=
    omap (fun item => match match_type item with
                      | Some t => if truthy t then Some (item, t) else None
                      | None => None
                      end) pineconeResults in
  let* fetched :=
    mapM (fun '(item, t) =>
            let* doc := fetchFromMongoDB w (match_id item) t in
            match doc with
            | Some d => ret (Some (mkRec (match_id item) (match_score item) t d))
            | None => ret None
            end) typed in
  ret (omap id fetched).

Definition recommendById (w : World) (itemId : string) (topK : Z)
    : M (list Rec) :=
  try_catch
    (let* res := call (EvQuery itemId (topK + 1))
                      (fun h => pinecone_query w h itemId (topK + 1)) in
     let filteredMatches :=
       slice0 (List.filter (fun m => negb (String.eqb (match_id m) itemId))
                           (default [] res)) topK in
     getMongoDBDocs w filteredMatches)
    (fun _ => ret []).

(** ** SequelDetector *)

(** [scoredContent.sort((a, b) => b.score - a.score)]: a stable sort,
    highest score first. *)
Fixpoint insertByScore (x : Doc * Q) (sorted : list (Doc * Q)) : list (Doc * Q) :=
  match sorted with
  | [] => [x]
  | y :: sorted' =>
      if Qle_bool (snd y) (snd x) then x :: y :: sorted'
      else y :: insertByScore x sorted'
  end.

Definition sortByScore (scored : list (Doc * Q)) : list (Doc * Q) :=
  foldr insertByScore [] scored.

(** The loop that pushes the scored items: it leaves as soon as the array
    of recommendations holds three entries or more. *)
Fixpoint pushScored (contentType : string) (scoredContent : list (Doc * Q))
    (recommendations : list Rec) : list Rec :=
  match scoredContent with
  | [] => recommendations
  | (item, score) :: scoredContent' =>
      let recommendations' :=
        recommendations
          ++ [mkRec (default "" (doc_id item)) score contentType item] in
      if (3 <=? length recommendations')%nat then recommendations'
      else pushScored contentType scoredContent' recommendations'
  end.

(** How the body of one iteration of [for (const content of contentData)]
    ends. *)
Inductive completion : Type :=
  | Normal
  | Break.

(** The [try] block of one iteration.  [content] is [None] for a [null] or
    [undefined] element of the array.  The pushes are the last statements
    that can change [recommendations], after every call that may throw, so
    an exception leaves the array as it was on entry. *)
(** [content.title || content.title_en || content.title_original || ''] *)
Definition contentTitle (c : Doc) : jsstring :=
  default [] (or_title (or_title (title c) (title_en c)) (title_original c)).

Definition processContent_try (w : World) (collection contentType : string)
    (userContentSet : gset string) (content : option Doc)
    (recommendations : list Rec) : M (list Rec * completion) :=
  match content with
  | None => throw (TypeError "Cannot read properties of null (reading 'title')")
  | Some c =>
      let title_ := contentTitle c in
      if negb (nonempty title_) then ret (recommendations, Normal)
      else
        let* seriesInfo := lift (extractSeriesInfo title_) in
        let* recommendations' :=
          match seriesName seriesInfo with
          | Some name =>
              if nonempty name then
                let* found :=
                  call (EvFindTitle collection (escapeRegex name) (doc_id c))
                       (fun h => mongo_find_title w h collection (escapeRegex name) (doc_id c)) in
                let potentialSeriesContent := take 5 found in
                let filteredSeriesContent :=
                  List.filter
                    (fun item => match doc_id item with
                                 | Some i => truthy i && negb (has userContentSet i)
                                 | None => false
                                 end) potentialSeriesContent in
                if (0 <? length filteredSeriesContent)%nat then
                  let scoredContent :=
                    map (fun item =>
                           (item, calculateMetadataSimilarity c item contentType))
                        filteredSeriesContent in
                  ret (pushScored contentType (sortByScore scoredContent)
                                  recommendations)
                else ret recommendations
              else ret recommendations
          | None => ret recommendations
          end in
        if (10 <=? length recommendations')%nat
        then ret (recommendations', Break)
        else ret (recommendations', Normal)
  end.

(** One iteration with its [catch]: the handler logs [content._id], which
    throws again when [content] is [null]; otherwise it continues with the
    next item. *)
Definition processContent (w : World) (collection contentType : string)
    (userContentSet : gset string) (content : option Doc)
    (recommendations : list Rec) : M (list Rec * completion) :=
  try_catch
    (processContent_try w collection contentType userContentSet content
                        recommendations)
    (fun _ =>
       match content with
       | None => throw (TypeError "Cannot read properties of null (reading '_id')")
       | Some _ => ret (recommendations, Normal)
       end).

(** The [for] loop over [contentData].  It returns the array of
    recommendations as the loop leaves it, with the exception that ended
    the loop, if any. *)
Fixpoint forContentData (w : World) (collection contentType : string)
    (userContentSet : gset string) (contentData : list (option Doc))
    (recommendations : list Rec) (h : history)
    : list Rec * option js_error * history :=
  match contentData with
  | [] => (recommendations, None, h)
  | content :: contentData' =>
      match processContent w collection contentType userContentSet content
                           recommendations h with
      | (Ok (recommendations', Break), h') => (recommendations', None, h')
      | (Ok (recommendations', Normal), h') =>
          forContentData w collection contentType userContentSet contentData'
                         recommendations' h'
      | (Throw e, h') => (recommendations, Some e, h')
      end
  end.

(** Both the normal end of the outer [try] block and its [catch] return
    [recommendations]. *)
Definition findSequelsAndSeries (w : World) (contentData : list (option Doc))
    (contentType : string) (userContentSet : gset string) : M (list Rec) :=
  if (length contentData =? 0)%nat then ret []
  else fun h =>
    match (let* _ := ensureConnected w in lift (getCollectionName contentType)) h with
    | (Throw _, h') => (Ok [], h')
    | (Ok collection, h') =>
        let '(recommendations, _, h'') :=
          forContentData w collection contentType userContentSet contentData [] h' in
        (Ok recommendations, h'')
    end.

(** ** RecommendationAggregator *)

(** The value an identifier is bound to, as far as the fallback of the
    aggregator needs it. *)
Inductive binding : Type :=
  | BRecs (recs : list Rec)
  | BOpaque.

(** The bindings visible in the [catch] clause of
    [getRecommendationsByType]: the exception, the parameters of the
    function and the declarations of the module.  The [const]s of the [try]
    block ([sequelRecs], [remainingCount], [sampleIds], ...) are scoped to
    that block, and no global of the runtime has one of their names. *)
Definition catch_scope : list (string * binding) :=
  map (fun x => (x, BOpaque))
    ["error"; "contentData"; "contentType"; "perTypeCount"; "userContentSet";
     "MongoClient"; "config"; "OpenAI"; "recommendById"; "ObjectId";
     "mongoClient"; "openai"; "getUserContentLists"; "extractUserContent";
     "fetchContentDetails"; "getCollectionName"; "getRecommendationsByType";
     "findSequelsAndSeries"; "extractSeriesInfo"; "calculateMetadataSimilarity";
     "compareArrays"; "getFieldArrayValues"; "escapeRegex"; "recommendForUser"].

Fixpoint resolve (scope : list (string * binding)) (ident : string)
    : result binding :=
  match scope with
  | [] => Throw (ReferenceError ident)
  | (x, v) :: scope' => if String.eqb x ident then Ok v else resolve scope' ident
  end.

(** [return sequelRecs || [];] in the [catch] clause. *)
Definition getRecommendationsByType_catch (error : js_error) : M (list Rec) :=
  let* sequelRecs := lift (resolve catch_scope "sequelRecs") in
  match sequelRecs with
  | BRecs recs => ret recs
  | BOpaque => ret []
  end.

(** [item._id?.toString() || item.id?.toString()] *)
Definition sampleId (item : option Doc) : result (option string) :=
  match item with
  | None => Throw (TypeError "Cannot read properties of null (reading '_id')")
  | Some d => Ok (or_else (doc_id d) (doc_alt_id d))
  end.

(** The filter of the similarity matches. *)
Definition keepSimilar (contentType : string) (userContentSet : gset string)
    (sequelRecs : list Rec) (rec : Rec) : bool :=
  truthy (rec_type rec) && truthy (rec_id rec)
  && String.eqb (rec_type rec) contentType
  && negb (has userContentSet (rec_id rec))
  && negb (existsb (fun seqRec => String.eqb (rec_id seqRec) (rec_id rec)) sequelRecs).

(** The second step of the [try] block, once [sequelRecs] is known and is
    shorter than [perTypeCount]. *)
Definition similarityStep (w : World) (contentData : list (option Doc))
    (contentType : string) (perTypeCount : Z) (userContentSet : gset string)
    (sequelRecs : list Rec) : M (list Rec) :=
  let remainingCount := perTypeCount - Z.of_nat (length sequelRecs) in
  let* sampleIds := lift (map_result sampleId (take 3 contentData)) in
  let validSampleIds := List.filter truthy (omap id sampleIds) in
  if (length validSampleIds =? 0)%nat then ret sequelRecs
  else
    let* allRecommendations :=
      mapM (fun id =>
              try_catch
                (recommendById w id
                   (ceil_div remainingCount (Z.of_nat (length validSampleIds)) * 2))
                (fun _ => ret []))
           validSampleIds in
    let similarityRecs :=
      slice0 (List.filter (keepSimilar contentType userContentSet sequelRecs)
                          (concat allRecommendations))
             remainingCount in
    ret (sequelRecs ++ similarityRecs).

Definition getRecommendationsByType_try (w : World)
    (contentData : list (option Doc)) (contentType : string)
    (perTypeCount : Z) (userContentSet : gset string) : M (list Rec) :=
  let* sequelRecs :=
    findSequelsAndSeries w contentData contentType userContentSet in
  if Z.of_nat (length sequelRecs) >=? perTypeCount
  then ret (slice0 sequelRecs perTypeCount)
  else similarityStep w contentData contentType perTypeCount userContentSet
                      sequelRecs.

Definition getRecommendationsByType (w : World)
    (contentData : list (option Doc)) (contentType : string)
    (perTypeCount : Z) (userContentSet : gset string) : M (list Rec) :=
  if (length contentData =? 0)%nat then ret []
  else
    try_catch
      (getRecommendationsByType_try w contentData contentType perTypeCount
                                    userContentSet)
      getRecommendationsByType_catch.

(** ** UserProfileResolver and RecommendationOrchestrator *)

(** [result[0] || null], and [null] on any error. *)
Definition getUserContentLists (w : World) (userId : string)
    : M (option UserLists) :=
  try_catch
    (let* _ := ensureConnected w in
     let* found := call (EvAggregate userId)
                        (fun h => mongo_aggregate w h userId) in
     ret (head found))
    (fun _ => ret None).

Definition fetchContentDetails (w : World) (ids : list string)
    (contentType : string) : M (list Doc) :=
  if (length ids =? 0)%nat then ret []
  else
    try_catch
      (let* _ := ensureConnected w in
       let* collectionName := lift (getCollectionName contentType) in
       let given := List.filter truthy ids in
       let objectIdQueries := map KeyOid (List.filter (objectId_valid w) given) in
       let stringIdQueries :=
         map KeyStr (List.filter (fun id => negb (objectId_valid w id)) given) in
       if (length objectIdQueries =? 0)%nat && (length stringIdQueries =? 0)%nat
       then ret []
       else
         call (EvFindMany collectionName (objectIdQueries ++ stringIdQueries))
              (fun h => mongo_find_many w h collectionName
                          (objectIdQueries ++ stringIdQueries)))
      (fun _ => ret []).

Record UserData : Type := mkUserData {
  ud_movies : list string;
  ud_tvSeries : list string;
  ud_animes : list string;
  ud_games : list string;
  movieDetails : list Doc;
  tvSeriesDetails : list Doc;
  animeDetails : list Doc;
  gameDetails : list Doc
}.

(** [list.filter(item => f(item)).map(item => f(item))], [[]] for an absent
    list. *)
Definition extractIds (f : ListEntry -> option string)
    (entries : option (list ListEntry)) : list string :=
  match entries with
  | None => []
  | Some l => List.filter truthy (omap f l)
  end.

Definition extractUserContent (w : World) (userLists : UserLists)
    : M UserData :=
  let movies_ := extractIds movie_id (movie_watch_lists userLists) in
  let tvSeries_ :=
    extractIds (fun item => or_else (tvseries_id item) (tv_id item))
               (tvseries_watch_lists userLists) in
  let animes_ := extractIds anime_id (anime_lists userLists) in
  let games_ := extractIds game_id (game_lists userLists) in
  let* md := fetchContentDetails w movies_ "movie" in
  let* td := fetchContentDetails w tvSeries_ "tvseries" in
  let* ad := fetchContentDetails w animes_ "anime" in
  let* gd := fetchContentDetails w games_ "game" in
  ret (mkUserData movies_ tvSeries_ animes_ games_ md td ad gd).

(** One entry of [recommendationPromises]:
    [details.length > 0 ? getRecommendationsByType(...).catch(err => []) : []] *)
Definition recommendationPromise (w : World) (details : list (option Doc))
    (contentType : string) (perTypeCount : Z) (userContentSet : gset string)
    : M (list Rec) :=
  if (0 <? length details)%nat then
    try_catch
      (getRecommendationsByType w details contentType perTypeCount userContentSet)
      (fun _ => ret [])
  else ret [].

(** An argument of a call: left out, [null], or a value. *)
Inductive js_arg (A : Type) : Type :=
  | Undefined
  | Null
  | Value (a : A).
Arguments Undefined {A}.
Arguments Null {A}.
Arguments Value {A} a.

Definition recommendForUser_try (w : World) (userIds : js_arg (list string))
    (topK : Z) : M RecommendationResult :=
  (* the default parameter [userIds = []], then [userIds.length] *)
  let* ids := lift (match userIds with
                    | Undefined => Ok []
                    | Null => Throw (TypeError "Cannot read properties of null (reading 'length')")
                    | Value l => Ok l
                    end) in
  match ids with
  | [] => ret EmptyArray
  | userId :: _ =>
      let* userLists := getUserContentLists w userId in
      match userLists with
      | None => ret EmptyArray
      | Some lists =>
          let* userData := extractUserContent w lists in
          let totalContent :=
            (length (movieDetails userData) + length (tvSeriesDetails userData)
             + length (animeDetails userData) + length (gameDetails userData))%nat in
          if (totalContent =? 0)%nat then ret EmptyArray
          else
            let movieSet : gset string := list_to_set (List.filter truthy (ud_movies userData)) in
            let tvSet : gset string := list_to_set (List.filter truthy (ud_tvSeries userData)) in
            let animeSet : gset string := list_to_set (List.filter truthy (ud_animes userData)) in
            let gameSet : gset string := list_to_set (List.filter truthy (ud_games userData)) in
            let perTypeCount := topK in
            let* movieRecs :=
              recommendationPromise w (map Some (movieDetails userData))
                                    "movie" perTypeCount movieSet in
            let* tvRecs :=
              recommendationPromise w (map Some (tvSeriesDetails userData))
                                    "tvseries" perTypeCount tvSet in
            let* animeRecs :=
              recommendationPromise w (map Some (animeDetails userData))
                                    "anime" perTypeCount animeSet in
            let* gameRecs :=
              recommendationPromise w (map Some (gameDetails userData))
                                    "game" perTypeCount gameSet in
            let totalRecommendations :=
              (length movieRecs + length tvRecs + length animeRecs
               + length gameRecs)%nat in
            if (totalRecommendations =? 0)%nat then ret EmptyArray
            else ret (Buckets movieRecs tvRecs animeRecs gameRecs
                              (movieRecs ++ tvRecs ++ animeRecs ++ gameRecs))
      end
  end.

Definition recommendForUser (w : World) (userIds : js_arg (list string))
    (topK : Z) : M RecommendationResult :=
  try_catch (recommendForUser_try w userIds topK) (fun _ => ret EmptyArray).

(** ** IngestionPipeline *)

(** An embedding vector. *)
Definition embedding : Type := list Q.

(** A vector of an upsert: [{ id, values, metadata: { type } }]. *)
Record Vector : Type := mkVector {
  vec_id : string;
  vec_values : embedding;
  vec_type : string
}.

(** The external services of the ingestion script, and the template
    [buildText], which the retry and skip logic does not look into. *)
Record IngestWorld : Type := mkIngestWorld {
  (** [collection.countDocuments({})] *)
  count_documents : history -> string -> result nat;
  (** [collection.find({}).skip(skip).limit(limit).toArray()] *)
  find_page : history -> string -> nat -> nat -> result (list Doc);
  (** [buildText(doc, collName)] *)
  buildText : Doc -> string -> result string;
  (** [openai.embeddings.create({ model, input })]: the vectors of
      [embeddingRes.data] *)
  openai_embed : history -> list string -> result (list embedding);
  (** [pineconeIndex.upsert(vectors)] *)
  pinecone_upsert : history -> list Vector -> result unit
}.

Definition sleep (ms : Q) : M unit := call (EvSleep ms) (fun _ => Ok tt).

(** [s.includes(sub)] *)
Fixpoint includes (s sub : string) : bool :=
  String.prefix sub s
  || match s with
     | String _ s' => includes s' sub
     | EmptyString => false
     end.

(** [error?.error?.type === 'requests' && error.status === 429] *)
Definition isRateLimit (error : js_error) : bool :=
  match err_api_type error, err_status error with
  | Some t, Some status => String.eqb t "requests" && (status =? 429)
  | _, _ => false
  end.

(** [error.message && (error.message.includes('timeout') ||
    error.message.includes('timed out'))] *)
Definition isTimeout (error : js_error) : bool :=
  match err_message error with
  | Some m => truthy m && (includes m "timeout" || includes m "timed out")
  | None => false
  end.

(** [initialWaitTime * Math.pow(1.5, attempt - 1)] *)
Definition backoff (initialWaitTime : Q) (attempt : nat) : Q :=
  (initialWaitTime * 1.5 ^ (Z.of_nat attempt - 1))%Q.

(** The [for] loop of [withRetry]; [remaining] counts the iterations left,
    [maxRetries - attempt + 1]. *)
Fixpoint withRetry_from {A} (fn : M A) (maxRetries : nat) (initialWaitTime : Q)
    (remaining attempt : nat) : M A :=
  match remaining with
  | O => throw (Error ("Failed after " +:+ pretty maxRetries +:+ " retries"))
  | S remaining' =>
      try_catch fn (fun error =>
        if isRateLimit error then
          let waitTime := backoff initialWaitTime attempt in
          let* _ := sleep waitTime in
          withRetry_from fn maxRetries initialWaitTime remaining' (S attempt)
        else if isTimeout error then
          let waitTime := backoff initialWaitTime attempt in
          let* _ := sleep waitTime in
          withRetry_from fn maxRetries initialWaitTime remaining' (S attempt)
        else if (attempt <? maxRetries)%nat then
          let* _ := sleep (backoff initialWaitTime attempt) in
          withRetry_from fn maxRetries initialWaitTime remaining' (S attempt)
        else throw error)
  end.

Definition withRetry {A} (fn : M A) (maxRetries : nat) (initialWaitTime : Q)
    : M A :=
  withRetry_from fn maxRetries initialWaitTime maxRetries 1%nat.

(** [documents.map((doc, i) => ({ id: doc.id, values:
    embeddingRes.data[i].embedding, metadata }))] *)
Fixpoint zipVectors (documents : list (string * string))
    (data : list embedding) (contentType : string) : result (list Vector) :=
  match documents with
  | [] => Ok []
  | (id, _) :: documents' =>
      match data with
      | [] => Throw (TypeError "Cannot read properties of undefined (reading 'embedding')")
      | values :: data' =>
          match zipVectors documents' data' contentType with
          | Ok vs => Ok (mkVector id values contentType :: vs)
          | Throw e => Throw e
          end
      end
  end.

Definition processBatch (w : IngestWorld) (documents : list (string * string))
    (contentType : string) : M unit :=
  let texts := map snd documents in
  let* embeddingRes :=
    withRetry (call (EvEmbed texts) (fun h => openai_embed w h texts)) 5 4400 in
  let* vectors := lift (zipVectors documents embeddingRes contentType) in
  withRetry (call (EvUpsert (map vec_id vectors))
                  (fun h => pinecone_upsert w h vectors)) 5 4400.

(** The local variables of [ingestCollection] that the loop updates. *)
Record LoopState : Type := mkLoop {
  processed : nat;
  failedAttempts : nat;
  batchNum : nat
}.

Definition BATCH_SIZE : nat := 50.

(** [{ id: doc._id.toString(), text: buildText(doc, collName) }] *)
Definition toDocument (w : IngestWorld) (collName : string) (doc : Doc)
    : result (string * string) :=
  match doc_id doc with
  | None => Throw (TypeError "Cannot read properties of undefined (reading 'toString')")
  | Some id =>
      match buildText w doc collName with
      | Ok text => Ok (id, text)
      | Throw e => Throw e
      end
  end.

(** The fetch of the next batch with its own [try]/[catch]: [None] when the
    fetch failed for good and the loop [continue]s after five seconds. *)
Definition fetchBatch (w : IngestWorld) (collName : string) (st : LoopState)
    : M (option (list Doc)) :=
  try_catch
    (let* batch :=
       withRetry (call (EvFindPage collName (processed st) BATCH_SIZE)
                       (fun h => find_page w h collName (processed st) BATCH_SIZE))
                 3 4400 in
     ret (Some batch))
    (fun _ => let* _ := sleep 5000 in ret None).

(** The [try]/[catch] around [processBatch]: the new values of the local
    variables. *)
Definition processFetched (w : IngestWorld) (contentType : string)
    (st : LoopState) (batch : list Doc) (documents : list (string * string))
    : M LoopState :=
  try_catch
    (let* _ := processBatch w documents contentType in
     let st' := mkLoop (processed st + length batch) 0 (batchNum st) in
     let* _ := sleep 1000 in
     ret st')
    (fun _ =>
       let failed := S (failedAttempts st) in
       let st' :=
         if (5 <=? failed)%nat
         then mkLoop (processed st + length batch) 0 (batchNum st)
         else mkLoop (processed st) failed (batchNum st) in
       let* _ := sleep (5000 * inject_Z (Z.of_nat (failedAttempts st'))) in
       ret st').

(** The [try] block of one iteration of [while (hasMoreData)], after
    [batchNum++]: the new values of the local variables and of
    [hasMoreData]. *)
Definition iteration_try (w : IngestWorld) (collName contentType : string)
    (st : LoopState) : M (LoopState * bool) :=
  let* fetched := fetchBatch w collName st in
  match fetched with
  | None => ret (st, true)
  | Some batch =>
      if (length batch =? 0)%nat then ret (st, false)
      else
        let* documents := lift (map_result (toDocument w collName) batch) in
        let* st' := processFetched w contentType st batch documents in
        ret (st', true)
  end.

(** One iteration with the [catch (batchErr)] of the loop body. *)
Definition iteration (w : IngestWorld) (collName contentType : string)
    (st : LoopState) : M (LoopState * bool) :=
  let st := mkLoop (processed st) (failedAttempts st) (S (batchNum st)) in
  try_catch (iteration_try w collName contentType st)
            (fun _ => let* _ := sleep 5000 in ret (st, true)).

(** A run that is given [fuel] iterations either ends or is still going. *)
Inductive run (A : Type) : Type :=
  | Done (a : A)
  | Running.
Arguments Done {A} a.
Arguments Running {A}.

Fixpoint ingestLoop (w : IngestWorld) (collName contentType : string)
    (fuel : nat) (st : LoopState) : M (run LoopState) :=
  match fuel with
  | O => ret Running
  | S fuel' =>
      let* next := iteration w collName contentType st in
      let '(st', hasMoreData) := next in
      if hasMoreData then ingestLoop w collName contentType fuel' st'
      else ret (Done st')
  end.

(** How [ingestCollection] ends: the loop is left and the completion is
    logged, or the outer [catch] logs the error. *)
Inductive ingest_end : Type :=
  | Completed (st : LoopState)
  | Failed (e : js_error).

Definition ingestCollection (w : IngestWorld) (collName contentType : string)
    (fuel : nat) : M (run ingest_end) :=
  try_catch
    (let* totalDocuments := call (EvCount collName)
                                 (fun h => count_documents w h collName) in
     let* r := ingestLoop w collName contentType fuel (mkLoop 0 0 0) in
     match r with
     | Done st => ret (Done (Completed st))
     | Running => ret Running
     end)
    (fun e => ret (Done (Failed e))).

(** ** Vocabulary of the statements *)

(** One of the two compared arrays is empty. *)
Definition oneSideEmpty (p : nat * nat) : Prop :=
  fst p = 0%nat \/ snd p = 0%nat.

(** A computation that never throws. *)
Definition total {A} (m : M A) : Prop :=
  forall h, exists a h', m h = (Ok a, h').

(** The queries sent to the vector index. *)
Definition is_query (e : event) : bool :=
  match e with
  | EvQuery _ _ => true
  | _ => false
  end.

Definition queries (h : history) : history := List.filter is_query h.

(** The waits of a run. *)
Definition sleeps (h : history) : list Q :=
  omap (fun e => match e with EvSleep ms => Some ms | _ => None end) h.

(** What one iteration of the loop over the consumed items does to the array
    of recommendations. *)
Definition iteration_ok (userContentSet : gset string) (contentType : string)
    (recommendations recommendations' : list Rec) (c : completion) : Prop :=
  exists added,
    recommendations' = recommendations ++ added
    /\ (length added <= 3)%nat
    /\ ((3 <= length recommendations)%nat -> (length added <= 1)%nat)
    /\ Forall (fun rec => (rec_id rec ∉ userContentSet) /\ rec_type rec = contentType) added
    /\ (c = Break -> (10 <= length recommendations')%nat)
    /\ (c = Normal -> (length recommendations' < 10)%nat \/ added = []).

Definition fresh_for (userContentSet : gset string) (contentType : string)
    (rec : Rec) : Prop :=
  (rec_id rec ∉ userContentSet) /\ rec_type rec = contentType.



(** The external calls of [count] failed attempts in a row, the first of
    them numbered [first]: each call [ev] is followed by its wait. *)
Definition attemptsTrace (ev : event) (initialWaitTime : Q) (first count : nat)
    : history :=
  concat (map (fun n => [ev; EvSleep (backoff initialWaitTime n)])
              (seq first count)).

(** An error that [withRetry] retries whatever the attempt number. *)
Definition retryable (e : js_error) : bool := isRateLimit e || isTimeout e.



(** ** The meaning of a pattern

    What a pattern can consume, stated without the order in which the
    matcher tries the alternatives. *)

(** The iterations of a star: each of them moves on in the input. *)
Inductive iter (R : mstate -> mstate -> Prop) : mstate -> mstate -> Prop :=
  | iter_stop st : iter R st st
  | iter_step st st1 st2 :
      R st st1 -> pos st1 <> pos st -> iter R st1 st2 -> iter R st st2.

(** [consumes r st st']: the pattern [r] can take the matcher from the
    state [st] to the state [st']. *)
Fixpoint consumes (r : regex) (st st' : mstate) : Prop :=
  match r with
  | RChar p =>
      exists c s', rest st = c :: s' /\ p c = true
                   /\ st' = mkState (S (pos st)) s' (cap1 st)
  | RSeq r1 r2 => exists st1, consumes r1 st st1 /\ consumes r2 st1 st'
  | RAlt r1 r2 => consumes r1 st st' \/ consumes r2 st st'
  | RStar _ r1 => iter (consumes r1) st st'
  | RGroup r1 =>
      exists st1, consumes r1 st st1
                  /\ st' = mkState (pos st1) (rest st1) (Some (pos st, pos st1))
  | RBegin => pos st = 0%nat /\ st' = st
  | REnd => rest st = [] /\ st' = st
  end.

(** A pattern without a capture group. *)
Fixpoint group_free (r : regex) : bool :=
  match r with
  | RChar _ | RBegin | REnd => true
  | RSeq r1 r2 | RAlt r1 r2 => group_free r1 && group_free r2
  | RStar _ r1 => group_free r1
  | RGroup _ => false
  end.

(** [st'] is [st] after the code units [t]. *)
Definition advanced (st : mstate) (t : jsstring) (st' : mstate) : Prop :=
  rest st = t ++ rest st' /\ pos st' = (pos st + length t)%nat.

(** [r] consumes exactly the strings of [L], wherever it is tried. *)
Definition reads (L : jsstring -> Prop) (r : regex) : Prop :=
  forall st st',
    consumes r st st'
    <-> exists t s', L t /\ rest st = t ++ s'
                     /\ st' = mkState (pos st + length t) s' (cap1 st).

(** [r] can be matched exactly where the rest of the input is in [E]. *)
Definition ends (E : jsstring -> Prop) (r : regex) : Prop :=
  forall st, (exists st', consumes r st st') <-> E (rest st).

(** ** The vocabulary of the series identity *)

(** The vocabulary of the title patterns, code unit by code unit. *)
Definition whiteSpace : list codeunit :=
  [9; 10; 11; 12; 13; 32; 160; 5760; 8192; 8193; 8194; 8195; 8196; 8197;
   8198; 8199; 8200; 8201; 8202; 8232; 8233; 8239; 8287; 12288; 65279]%N.

Definition lineTerminators : list codeunit := [10; 13; 8232; 8233]%N.

Definition isSeparator (t : jsstring) : Prop :=
  (t <> [] /\ Forall (fun c => c ∈ whiteSpace) t) \/ t = js "-" \/ t = js ":".

Definition isNumeral (t : jsstring) : Prop :=
  t <> []
  /\ (Forall (fun c => c ∈ js "0123456789") t
      \/ Forall (fun c => c ∈ js "IVXLCDMivxlcdm") t).

(** The words of the patterns are written with the letters [a] to [z]. *)
Definition lowerCase (a : ascii) : bool :=
  ((97 <=? code a) && (code a <=? 122))%N.

(** [t] spells the lower-case [word], in any mixture of cases. *)
Definition spells (word : string) (t : jsstring) : Prop :=
  Forall2 (fun a c => c = code a \/ (c + 32)%N = code a)
          (list_ascii_of_string word) t.

Definition isOneOf (words : list string) (t : jsstring) : Prop :=
  Exists (fun word => spells word t) words.

Definition seasonWords : list string := ["season"; "part"; "chapter"].

Definition franchiseWords : list string :=
  ["the"; "a"; "an"; "origins"; "returns"; "rises"; "forever"; "begins"].

(** [s] begins with a [first] part and goes on with a [next] part. *)
Definition followed (first next : jsstring -> Prop) (s : jsstring) : Prop :=
  exists t s', s = t ++ s' /\ first t /\ next s'.

(** After a token comes a separator or the end of the title. *)
Definition tokenEnds (s : jsstring) : Prop :=
  s = [] \/ followed isSeparator (fun _ => True) s.

(** What follows the prefix in a title that the number pattern, the season
    pattern and the franchise pattern recognise. *)
Definition numberToken : jsstring -> Prop :=
  followed isSeparator (followed isNumeral tokenEnds).

Definition seasonToken : jsstring -> Prop :=
  followed isSeparator
    (followed (isOneOf seasonWords)
       (followed isSeparator (followed isNumeral tokenEnds))).

Definition franchiseToken : jsstring -> Prop :=
  followed isSeparator (followed (isOneOf franchiseWords) tokenEnds).

(** [title] is [g], which has no line terminator, and then a token. *)
Definition splitsAt (token : jsstring -> Prop) (title g : jsstring) : Prop :=
  exists s, title = g ++ s /\ Forall (fun c => c ∉ lineTerminators) g /\ token s.

(** A pattern recognises a title that splits somewhere. *)
Definition recognised (token : jsstring -> Prop) (title : jsstring) : Prop :=
  exists g, splitsAt token title g.

(** The lazy prefix of a pattern is the shortest one. *)
Definition shortestPrefix (token : jsstring -> Prop) (title g : jsstring)
    : Prop :=
  splitsAt token title g
  /\ forall g', splitsAt token title g' -> (length g <= length g')%nat.

(** [name] is [g] without the white space at its two ends. *)
Definition isTrimOf (g name : jsstring) : Prop :=
  exists l r, g = l ++ name ++ r
    /\ Forall (fun c => c ∈ whiteSpace) l
    /\ Forall (fun c => c ∈ whiteSpace) r
    /\ (forall c, head name = Some c -> c ∉ whiteSpace)
    /\ (forall c, last name = Some c -> c ∉ whiteSpace).

(** The name that a pattern gives to a title. *)
Definition namedBy (token : jsstring -> Prop) (title : jsstring)
    (name : option jsstring) : Prop :=
  exists g n, shortestPrefix token title g /\ isTrimOf g n /\ name = Some n.

(** The series name of a title: the patterns in their order, then the
    whole title when it is longer than 4. *)
Definition seriesIdentity (title : jsstring) (name : option jsstring) : Prop :=
  namedBy numberToken title name
  \/ (~ recognised numberToken title /\ namedBy seasonToken title name)
  \/ (~ recognised numberToken title /\ ~ recognised seasonToken title
      /\ namedBy franchiseToken title name)
  \/ (~ recognised numberToken title /\ ~ recognised seasonToken title
      /\ ~ recognised franchiseToken title
      /\ ((4 < length title)%nat /\ name = Some title
          \/ (length title <= 4)%nat /\ name = None)).

(** ** The title patterns as trailing patterns

    The patterns of the specification: the numeral, the Season, Part or
    Chapter number, or the franchise word is the last thing in the title. *)

Definition trailing (token : regex) : regex :=
  prefixed (RSeqs separator [token; REnd]).

Definition trailingNumberPattern : regex := trailing numeral.

Definition trailingSeasonPattern : regex :=
  trailing (RSeqs seasonWord [separator; numeral]).

Definition trailingFranchisePattern : regex := trailing franchiseWord.

Definition seriesNameWithTrailingPatterns (title : jsstring)
    : option jsstring :=
  match omap id [str_match title trailingNumberPattern;
                 str_match title trailingSeasonPattern;
                 str_match title trailingFranchisePattern] with
  | first :: _ => trim <$> m1 first
  | [] => if (4 <? length title)%nat then Some title else None
  end.

(** ** Escaped patterns *)


(** ** A small catalogue and its services, for the examples *)

Definition movieDoc (id title_ : string) (genres_ : list string) : Doc :=
  mkDoc (Some id) None (Some (js title_)) None None (map EStr genres_)
        [] [] [] [] [] [] [] [] [].

Definition rocky1 : Doc := movieDoc "m1" "Rocky" ["Drama"; "Sport"].
Definition rocky2 : Doc := movieDoc "m2" "Rocky II" ["Drama"; "Sport"].
Definition rocky3 : Doc := movieDoc "m3" "Rocky III" ["Drama"; "Sport"].
Definition heat : Doc := movieDoc "m4" "Heat" ["Crime"].

Definition catalogue : list Doc := [rocky1; rocky2; rocky3; heat].

Definition key_matches (key : mongo_key) (doc : Doc) : bool :=
  match key, doc_id doc with
  | KeyStr id, Some i => String.eqb id i
  | _, _ => false
  end.

Definition same_id (x y : option string) : bool :=
  match x, y with
  | Some a, Some b => String.eqb a b
  | None, None => true
  | _, _ => false
  end.

(** Whether [needle] occurs in [hay]: the title query of the example store,
    for a pattern without special characters. *)
Fixpoint occurs (needle hay : jsstring) : bool :=
  bool_decide (needle `prefix_of` hay)
  || match hay with
     | _ :: hay' => occurs needle hay'
     | [] => false
     end.

(** The text of a title of ASCII characters. *)
Definition asciiText (s : jsstring) : string :=
  string_of_list_ascii (map ascii_of_N s).

(** The user [u1] has watched the first two films; the vector index answers
    every query with six matches, the queried film among them. *)
Definition rockyWorld : World :=
  mkWorld
    (fun _ => Ok tt)
    (fun _ userId =>
       if String.eqb userId "u1"
       then Ok [mkUserLists
                  (Some [mkEntry (Some "m1") None None None None;
                         mkEntry (Some "m2") None None None None])
                  None None None]
       else Ok [])
    (fun _ _ pattern exclude =>
       Ok (List.filter
             (fun doc => occurs pattern (contentTitle doc)
                         && negb (same_id (doc_id doc) exclude))
             catalogue))
    (fun _ _ key => Ok (head (List.filter (key_matches key) catalogue)))
    (fun _ _ keys =>
       Ok (List.filter (fun doc => existsb (fun key => key_matches key doc) keys)
                       catalogue))
    (fun _ => false)
    (fun _ _ _ =>
       Ok (Some [mkMatch "m1" 1 (Some "movie"); mkMatch "m3" 0.9 (Some "movie");
                 mkMatch "m2" 0.8 (Some "movie"); mkMatch "m4" 0.7 (Some "movie");
                 mkMatch "g1" 0.6 (Some "game"); mkMatch "x9" 0.5 None])).

Definition watched : gset string := list_to_set ["m1"; "m2"].

(** An ingestion world with two documents whose embedding call always
    fails with an error that is neither a rate limit nor a timeout. *)
Definition failingWorld : IngestWorld :=
  mkIngestWorld
    (fun _ _ => Ok 2%nat)
    (fun _ _ skip limit => Ok (take limit (drop skip [rocky1; rocky2])))
    (fun doc _ => Ok (asciiText (contentTitle doc)))
    (fun _ _ => Throw (Error "bad request"))
    (fun _ _ => Ok tt).


(** A title that only the season pattern matches: the line break keeps the
    lazy prefix of the number pattern from reaching the numeral. *)
Definition seasonOnlyTitle : jsstring :=
  js "X" ++ [10%N] ++ js "season 4".

(** * Properties *)

(** ** SimilarityScorer *)

Section CompareArraysFacts.
Context {A : Type} `{Countable A}.

Lemma intersectionCount_le_l (set1 set2 : gset A) :
  (intersectionCount set1 set2 <= size set1)%nat.
Proof.
  unfold intersectionCount. apply subseteq_size.
  intros x Hx. apply elem_of_filter in Hx. tauto.
Qed.

Lemma intersectionCount_le_r (set1 set2 : gset A) :
  (intersectionCount set1 set2 <= size set2)%nat.
Proof.
  unfold intersectionCount. apply subseteq_size.
  intros x Hx. apply elem_of_filter in Hx. tauto.
Qed.

Lemma compareArrays_empty (array1 array2 : list A) :
  array1 = [] \/ array2 = [] -> compareArrays array1 array2 = 0%Q.
Proof.
  unfold compareArrays. intros [-> | ->]; simpl; [reflexivity |].
  rewrite orb_true_r. reflexivity.
Qed.

Lemma compareArrays_range (array1 array2 : list A) :
  (0 <= compareArrays array1 array2 <= 1)%Q.
Proof.
  unfold compareArrays.
  destruct ((length array1 =? 0)%nat || (length array2 =? 0)%nat); [lra |].
  cbv zeta.
  pose proof (intersectionCount_le_l (list_to_set array1) (list_to_set array2)) as Hl.
  pose proof (intersectionCount_le_r (list_to_set array1) (list_to_set array2)) as Hr.
  set (i := intersectionCount _ _) in *.
  set (s1 := size (list_to_set array1 : gset A)) in *.
  set (s2 := size (list_to_set array2 : gset A)) in *.
  destruct (Z.eqb_spec (Z.of_nat s1 + Z.of_nat s2 - Z.of_nat i) 0) as [|Hne]; [lra |].
  set (u := Z.of_nat s1 + Z.of_nat s2 - Z.of_nat i) in *.
  assert (Hu : (0 < u)%Z) by lia.
  assert (Hi : (0 <= Z.of_nat i <= u)%Z) by lia.
  assert (HuQ : (0 < inject_Z u)%Q)
    by (change 0%Q with (inject_Z 0); rewrite <- Zlt_Qlt; lia).
  split.
  - apply Qle_shift_div_l; [exact HuQ |].
    rewrite Qmult_0_l. change 0%Q with (inject_Z 0). rewrite <- Zle_Qle. lia.
  - apply Qle_shift_div_r; [exact HuQ |].
    rewrite Qmult_1_l. rewrite <- Zle_Qle. lia.
Qed.
End CompareArraysFacts.

Lemma calculateMetadataSimilarity_range content1 content2 contentType :
  (0.5 <= calculateMetadataSimilarity content1 content2 contentType <= 0.99)%Q.
Proof.
  unfold calculateMetadataSimilarity. cbv zeta.
  split; [apply Q.min_glb; [lra |] | apply Q.le_min_l].
  repeat match goal with
  | |- context [if ?b then _ else _] => destruct b
  end;
  repeat match goal with
  | |- context [compareArrays ?a ?b] =>
      let H := fresh "H" in
      pose proof (compareArrays_range a b) as H;
      generalize dependent (compareArrays a b); intros
  end; lra.
Qed.

Lemma compareArrays_length0 {A} `{Countable A} (array1 array2 : list A) :
  length array1 = 0%nat \/ length array2 = 0%nat ->
  compareArrays array1 array2 = 0%Q.
Proof.
  intros [E | E]; apply compareArrays_empty;
    [left | right]; destruct array1, array2; simpl in E; congruence.
Qed.

(** C2: the similarity score lies in [0.5, 0.99] (so it is capped at 0.99),
    it is exactly 0.5 when no compared attribute category is non-empty on
    both sides, and equal inputs give equal scores. *)
Theorem similarity_score_bounds (content1 content2 : Doc) (contentType : string) :
  (0.5 <= calculateMetadataSimilarity content1 content2 contentType <= 0.99)%Q
  /\ (Forall oneSideEmpty (comparedLengths content1 content2 contentType) ->
      calculateMetadataSimilarity content1 content2 contentType == 0.5)%Q
  /\ (forall a b, a = content1 -> b = content2 ->
      calculateMetadataSimilarity a b contentType
      = calculateMetadataSimilarity content1 content2 contentType).
Proof.
  split; [apply calculateMetadataSimilarity_range |].
  split; [| intros a b -> ->; reflexivity].
  unfold comparedLengths, calculateMetadataSimilarity. cbv zeta.
  repeat match goal with
  | |- context [String.eqb contentType ?s] => destruct (String.eqb contentType s)
  end; intros Hall;
  repeat match goal with
  | H : Forall _ (_ :: _) |- _ =>
      let H1 := fresh "Hempty" in
      let H2 := fresh "Hall" in
      apply Forall_cons_1 in H; destruct H as [H1 H2]; unfold oneSideEmpty in H1; simpl in H1;
      rewrite (compareArrays_length0 _ _ H1)
  end; reflexivity.
Qed.

(** ** The monad *)

Lemma bind_ok {A B} (m : M A) (k : A -> M B) h a h' :
  m h = (Ok a, h') -> bind m k h = k a h'.
Proof. unfold bind. intros ->. reflexivity. Qed.

Lemma bind_throw {A B} (m : M A) (k : A -> M B) h e h' :
  m h = (Throw e, h') -> bind m k h = (Throw e, h').
Proof. unfold bind. intros ->. reflexivity. Qed.


Lemma try_catch_throw {A} (m : M A) handler h e h' :
  m h = (Throw e, h') -> try_catch m handler h = handler e h'.
Proof. unfold try_catch. intros ->. reflexivity. Qed.

Lemma total_try_catch_ret {A} (m : M A) (d : A) :
  total (try_catch m (fun _ => ret d)).
Proof.
  intros h. unfold try_catch, ret. destruct (m h) as [[a | e] h']; eauto.
Qed.

Lemma total_ret {A} (a : A) : total (ret a).
Proof. intros h. unfold ret. eauto. Qed.

Lemma total_bind {A B} (m : M A) (k : A -> M B) :
  total m -> (forall a, total (k a)) -> total (bind m k).
Proof.
  intros Hm Hk h. destruct (Hm h) as (a & h' & E).
  rewrite (bind_ok _ _ _ _ _ E). apply Hk.
Qed.

Lemma total_mapM {A B} (f : A -> M B) (xs : list A) :
  (forall x, total (f x)) -> total (mapM f xs).
Proof.
  intros Hf. induction xs as [| x xs IH]; simpl.
  - apply total_ret.
  - apply total_bind; [apply Hf |]. intros y.
    apply total_bind; [apply IH |]. intros ys. apply total_ret.
Qed.

(** ** recommendById *)

Lemma fetchFromMongoDB_total w id type : total (fetchFromMongoDB w id type).
Proof. apply total_try_catch_ret. Qed.

Lemma slice0_sublist {A} (xs : list A) (n : Z) : slice0 xs n `sublist_of` xs.
Proof. unfold slice0. destruct (n <? 0); apply sublist_take. Qed.

Lemma slice0_length {A} (xs : list A) (n : Z) :
  0 <= n -> Z.of_nat (length (slice0 xs n)) <= n.
Proof.
  intros Hn. unfold slice0. destruct (Z.ltb_spec n 0); [lia |].
  rewrite length_take. lia.
Qed.

Lemma slice0_nonneg {A} (xs : list A) (n : Z) :
  0 <= n -> slice0 xs n = take (Z.to_nat n) xs.
Proof. intros Hn. unfold slice0. destruct (Z.ltb_spec n 0); [lia | reflexivity]. Qed.

(** The documents hydrated by [getMongoDBDocs] keep the ids and the order of
    the matches they come from. *)
Lemma getMongoDBDocs_spec w (pineconeResults : list Match) h :
  exists recs h',
    getMongoDBDocs w pineconeResults h = (Ok recs, h')
    /\ map rec_id recs `sublist_of` map match_id pineconeResults.
Proof.
  unfold getMongoDBDocs.
  revert h. induction pineconeResults as [| item rest IH]; intros h.
  - simpl. unfold bind, ret. simpl. eexists _, _. split; [reflexivity |]. constructor.
  - simpl omap.
    assert (Hskip : forall recs h',
      (let* fetched := mapM (fun '(item, t) =>
            let* doc := fetchFromMongoDB w (match_id item) t in
            match doc with
            | Some d => ret (Some (mkRec (match_id item) (match_score item) t d))
            | None => ret None
            end)
          (omap (fun item => match match_type item with
                      | Some t => if truthy t then Some (item, t) else None
                      | None => None
                      end) rest) in ret (omap id fetched)) h = (Ok recs, h') ->
      map rec_id recs `sublist_of` map match_id rest ->
      map rec_id recs `sublist_of` map match_id (item :: rest)).
    { intros. simpl. by apply sublist_cons. }
    destruct (match_type item) as [t |]; [destruct (truthy t) |].
    2,3: destruct (IH h) as (recs & h' & E & S); eexists _, _; split; [exact E |];
         simpl; by apply sublist_cons.
    simpl mapM.
    destruct (fetchFromMongoDB_total w (match_id item) t h) as (doc & h1 & Ef).
    destruct (IH h1) as (recs & h' & E & S).
    unfold bind in E |- *. rewrite Ef.
    destruct doc as [d |]; unfold ret at 1.
    + destruct (mapM _ _ h1) as [[fetched | e] h2]; [| discriminate].
      unfold ret in E |- *. injection E as <- <-.
      eexists _, _. split; [reflexivity |]. simpl. by apply sublist_skip.
    + destruct (mapM _ _ h1) as [[fetched | e] h2]; [| discriminate].
      unfold ret in E |- *. injection E as <- <-.
      eexists _, _. split; [reflexivity |]. simpl. by apply sublist_cons.
Qed.

(** C6: [recommendById] always returns; no returned item has the id of the
    queried item, and for a non-negative [topK] at most [topK] items are
    returned. *)
Theorem recommendById_excludes_item_and_caps (w : World) (itemId : string)
    (topK : Z) (h : history) :
  exists recs h',
    recommendById w itemId topK h = (Ok recs, h')
    /\ Forall (fun rec => rec_id rec <> itemId) recs
    /\ (0 <= topK -> Z.of_nat (length recs) <= topK).
Proof.
  unfold recommendById, try_catch, bind, call.
  destruct (pinecone_query w h itemId (topK + 1)) as [res | e].
  2: { unfold ret. eexists _, _. split; [reflexivity |]. split; [constructor | simpl; lia]. }
  set (filteredMatches := slice0 _ topK).
  destruct (getMongoDBDocs_spec w filteredMatches (h ++ [EvQuery itemId (topK + 1)]))
    as (recs & h' & E & S).
  rewrite E. eexists _, _. split; [reflexivity |].
  assert (Sf : map match_id filteredMatches `sublist_of`
               map match_id (List.filter (fun m => negb (String.eqb (match_id m) itemId))
                                         (default [] res))).
  { apply (fmap_sublist match_id). apply slice0_sublist. }
  split.
  - apply Forall_forall. intros rec Hin Heq.
    assert (Hid : rec_id rec ∈ map rec_id recs) by (apply list_elem_of_fmap; eauto).
    eapply elem_of_sublist in Hid; [| exact S].
    eapply elem_of_sublist in Hid; [| exact Sf].
    apply list_elem_of_fmap in Hid as (m & Hm & Hin').
    apply list_elem_of_In, filter_In in Hin' as [_ Hne].
    rewrite Heq in Hm. rewrite <- Hm in Hne.
    rewrite String.eqb_refl in Hne. discriminate.
  - intros Hk. apply sublist_length in S. rewrite !length_map in S.
    pose proof (slice0_length (List.filter (fun m => negb (String.eqb (match_id m) itemId))
                                         (default [] res)) topK Hk).
    fold filteredMatches in H. lia.
Qed.

(** ** SequelDetector *)

Lemma queries_app h1 h2 : queries (h1 ++ h2) = queries h1 ++ queries h2.
Proof. unfold queries. apply List.filter_app. Qed.

Lemma queries_snoc h e : is_query e = false -> queries (h ++ [e]) = queries h.
Proof.
  intros He. rewrite queries_app. unfold queries at 2. simpl. rewrite He.
  apply app_nil_r.
Qed.

Lemma insertByScore_elem x y sorted :
  y ∈ insertByScore x sorted -> y = x \/ y ∈ sorted.
Proof.
  induction sorted as [| z sorted IH]; simpl.
  - intros Hy. apply list_elem_of_singleton in Hy. auto.
  - destruct (Qle_bool (snd z) (snd x)).
    + intros Hy. apply elem_of_cons in Hy. tauto.
    + intros Hy. apply elem_of_cons in Hy as [-> | Hy].
      * right. left.
      * destruct (IH Hy) as [-> | Hin]; [by left | right; by right].
Qed.

Lemma sortByScore_elem y scored : y ∈ sortByScore scored -> y ∈ scored.
Proof.
  induction scored as [| x scored IH]; simpl; [done |].
  intros Hy. apply insertByScore_elem in Hy as [-> | Hy]; [left | right; auto].
Qed.

Lemma insertByScore_length x sorted :
  length (insertByScore x sorted) = S (length sorted).
Proof.
  induction sorted as [| z sorted IH]; simpl; [done |].
  destruct (Qle_bool (snd z) (snd x)); simpl; congruence.
Qed.

Lemma sortByScore_length scored : length (sortByScore scored) = length scored.
Proof.
  induction scored as [| x scored IH]; simpl; [done |].
  rewrite insertByScore_length. congruence.
Qed.

(** The record pushed for a scored item. *)
Lemma pushScored_spec contentType scoredContent recommendations :
  exists n,
    pushScored contentType scoredContent recommendations
    = recommendations
      ++ map (fun p => mkRec (default "" (doc_id (fst p))) (snd p) contentType (fst p))
             (take n scoredContent)
    /\ (n <= length scoredContent)%nat
    /\ ((length recommendations + n <= 3)%nat \/ (n <= 1)%nat).
Proof.
  revert recommendations.
  induction scoredContent as [| [item score] rest IH]; intros recs; cbn -[Nat.leb].
  - exists 0%nat. simpl. rewrite app_nil_r. split; [done |]. lia.
  - destruct (Nat.leb_spec 3 (length (recs ++ [mkRec (default "" (doc_id item)) score contentType item])))
      as [Hge | Hlt].
    + exists 1%nat. simpl. split; [done |]. lia.
    + destruct (IH (recs ++ [mkRec (default "" (doc_id item)) score contentType item]))
        as (n & E & Hn & Hcap).
      exists (S n). rewrite E. simpl. rewrite <- app_assoc. simpl.
      split; [done |]. rewrite length_app in Hlt, Hcap. simpl in Hlt, Hcap. lia.
Qed.

Lemma has_false set id : has set id = false <-> id ∉ set.
Proof. unfold has. rewrite bool_decide_eq_false. done. Qed.

Lemma iteration_ok_same ucs t recs c :
  (c = Break -> (10 <= length recs)%nat) ->
  (c = Normal -> True) ->
  iteration_ok ucs t recs recs c.
Proof.
  intros Hb _. exists []. rewrite app_nil_r. simpl.
  repeat split; auto; lia.
Qed.

Lemma bind_inv {A B} (m : M A) (k : A -> M B) h r h' :
  bind m k h = (r, h') ->
  (exists a h1, m h = (Ok a, h1) /\ k a h1 = (r, h'))
  \/ (exists e, m h = (Throw e, h') /\ r = Throw e).
Proof.
  unfold bind. destruct (m h) as [[a | e] h1].
  - intros E. left. eauto.
  - intros [= <- <-]. right. eauto.
Qed.

Lemma processContent_try_spec w collection contentType ucs c recs h r h' :
  processContent_try w collection contentType ucs (Some c) recs h = (r, h') ->
  queries h' = queries h
  /\ match r with
     | Ok (recs', cmp) => iteration_ok ucs contentType recs recs' cmp
     | Throw _ => True
     end.
Proof.
  unfold processContent_try.
  destruct (nonempty (contentTitle c)); cbn [negb].
  2: { unfold ret. intros [= <- <-]. split; [done |].
       apply iteration_ok_same; [discriminate | done]. }
  intros E. apply bind_inv in E as [(info & h1 & E1 & E) | (e & E1 & ->)].
  2: { unfold lift in E1. by injection E1 as _ <-. }
  unfold lift in E1. injection E1 as _ <-.
  apply bind_inv in E as [(recs' & h1 & E1 & E) | (e & E1 & ->)].
  - assert (Hrecs : queries h1 = queries h
                    /\ exists added, recs' = recs ++ added
                       /\ ((length recs + length added <= 3)%nat \/ (length added <= 1)%nat)
                       /\ Forall (fun rec => (rec_id rec ∉ ucs) /\ rec_type rec = contentType) added).
    { assert (Hsame : forall h0, ret recs h0 = (Ok recs', h1) -> queries h0 = queries h ->
                queries h1 = queries h
                /\ exists added, recs' = recs ++ added
                   /\ ((length recs + length added <= 3)%nat \/ (length added <= 1)%nat)
                   /\ Forall (fun rec => (rec_id rec ∉ ucs) /\ rec_type rec = contentType) added).
      { unfold ret. intros h0 [= <- <-] Hq. split; [done |]. exists [].
        rewrite app_nil_r. simpl. repeat split; auto; lia. }
      destruct (seriesName info) as [name |]; [| by eapply Hsame].
      destruct (nonempty name); [| by eapply Hsame].
      apply bind_inv in E1 as [(found & h2 & E2 & E1) | (e & _ & [=])].
      unfold call in E2. injection E2 as _ <-.
      assert (Hq : queries (h ++ [EvFindTitle collection (escapeRegex name) (doc_id c)])
                   = queries h) by by apply queries_snoc.
      cbv zeta in E1.
      set (filtered := List.filter _ (take 5 found)) in E1.
      destruct (Nat.ltb_spec 0 (length filtered)) as [Hpos | Hzero];
        [| by eapply Hsame].
      set (scored := map _ filtered) in E1.
      destruct (pushScored_spec contentType (sortByScore scored) recs) as (n & Ep & Hn & Hcap).
      unfold ret in E1. injection E1 as <- <-. split; [done |].
      rewrite Ep. eexists. split; [reflexivity |].
      rewrite length_map, length_take.
      split; [lia |].
      apply List.Forall_forall. intros rec Hin.
      rewrite <- list_elem_of_In in Hin.
      apply list_elem_of_fmap in Hin as ([item score] & -> & Hin). simpl.
      split; [| done].
      apply (elem_of_sublist _ (sortByScore scored)) in Hin; [| apply sublist_take].
      apply sortByScore_elem in Hin.
      apply list_elem_of_fmap in Hin as (item' & [= -> ->] & Hin).
      apply list_elem_of_In, filter_In in Hin as [_ Hkeep].
      destruct (doc_id item') as [i |]; [| discriminate]. simpl.
      apply andb_true_iff in Hkeep as [_ Hkeep].
      apply negb_true_iff in Hkeep. by apply has_false. }
    destruct Hrecs as (Hq & added & -> & Hcap & Hadded).
    destruct (Nat.leb_spec 10 (length (recs ++ added))) as [Hge | Hlt];
      unfold ret in E; injection E as <- <-; (split; [done |]);
      exists added; repeat split; auto; try lia; try discriminate.
  - split; [| done].
    destruct (seriesName info) as [name |]; [| discriminate].
    destruct (nonempty name); [| discriminate].
    apply bind_inv in E1 as [(found & h2 & E2 & E1) | (e' & E2 & _)].
    + exfalso. cbv zeta in E1.
      destruct (0 <? length _)%nat in E1; discriminate.
    + unfold call in E2. injection E2 as _ <-. by apply queries_snoc.
Qed.

Lemma processContent_spec w collection contentType ucs content recs h r h' :
  processContent w collection contentType ucs content recs h = (r, h') ->
  queries h' = queries h
  /\ match r with
     | Ok (recs', c) => iteration_ok ucs contentType recs recs' c
     | Throw _ => content = None
     end.
Proof.
  unfold processContent, try_catch.
  destruct content as [c |].
  2: { simpl. unfold throw. intros [= <- <-]. done. }
  destruct (processContent_try _ _ _ _ _ _ _) as [[[recs' cmp] | e] h1] eqn:E;
    apply processContent_try_spec in E as [Hq Hok].
  - intros [= <- <-]. done.
  - unfold ret. intros [= <- <-]. split; [done |].
    apply iteration_ok_same; [discriminate | done].
Qed.

Lemma iteration_ok_length ucs t recs recs' c :
  (length recs < 10)%nat -> iteration_ok ucs t recs recs' c ->
  (length recs' <= 10)%nat.
Proof.
  intros Hlt (added & -> & H3 & H1 & _). rewrite length_app.
  destruct (Nat.le_gt_cases 3 (length recs)) as [Hge | Hsmall].
  - specialize (H1 Hge). lia.
  - lia.
Qed.

Lemma forContentData_spec w collection contentType ucs contentData :
  forall recs h recs' err h',
    (length recs < 10)%nat ->
    forContentData w collection contentType ucs contentData recs h = (recs', err, h') ->
    queries h' = queries h
    /\ (length recs' <= 10)%nat
    /\ exists added, recs' = recs ++ added /\ Forall (fresh_for ucs contentType) added.
Proof.
  induction contentData as [| content rest IH]; intros recs h recs' err h' Hlt; simpl.
  - intros [= <- <- <-]. split; [done |]. split; [lia |].
    exists []. by rewrite app_nil_r.
  - destruct (processContent _ _ _ _ _ _ _) as [[[recs1 c] | e] h1] eqn:E;
      apply processContent_spec in E as [Hq Hok].
    + pose proof (iteration_ok_length _ _ _ _ _ Hlt Hok) as Hle.
      destruct Hok as (added & -> & _ & _ & Hfresh & Hbreak & Hnormal).
      destruct c.
      * intros E. destruct (Hnormal eq_refl) as [Hlt1 | ->].
        -- apply IH in E as (Hq' & Hle' & added' & -> & Hfresh'); [| done].
           split; [congruence |]. split; [done |].
           exists (added ++ added'). rewrite app_assoc. split; [done |].
           apply Forall_app. done.
        -- rewrite app_nil_r in E.
           apply IH in E as (Hq' & Hle' & added' & -> & Hfresh'); [| done].
           split; [congruence |]. split; [done |]. eauto.
      * intros [= <- <- <-]. split; [done |]. split; [done |]. eauto.
    + intros [= <- <- <-]. split; [done |]. split; [lia |].
      exists []. by rewrite app_nil_r.
Qed.

(** Once the array holds ten recommendations the loop has been left: the
    items that follow are not looked at. *)
Lemma forContentData_stop w collection contentType ucs pre post :
  forall recs h recs' err h',
    (length recs < 10)%nat ->
    forContentData w collection contentType ucs pre recs h = (recs', err, h') ->
    (10 <= length recs')%nat ->
    forContentData w collection contentType ucs (pre ++ post) recs h = (recs', err, h').
Proof.
  induction pre as [| content rest IH]; intros recs h recs' err h' Hlt; simpl.
  - intros [= <- <- <-]. lia.
  - destruct (processContent _ _ _ _ _ _ _) as [[[recs1 c] | e] h1] eqn:E.
    + apply processContent_spec in E as [_ Hok].
      destruct c; [| done].
      destruct Hok as (added & -> & _ & _ & _ & _ & Hnormal).
      intros E Hge. apply IH; [| done | done].
      destruct (Hnormal eq_refl) as [Hlt1 | ->]; [done |].
      by rewrite app_nil_r.
    + intros [= <- <- <-]. lia.
Qed.

Lemma findSequelsAndSeries_spec w contentData contentType ucs h :
  exists recs h',
    findSequelsAndSeries w contentData contentType ucs h = (Ok recs, h')
    /\ queries h' = queries h
    /\ (length recs <= 10)%nat
    /\ Forall (fresh_for ucs contentType) recs.
Proof.
  unfold findSequelsAndSeries.
  destruct (length contentData =? 0)%nat.
  { unfold ret. eexists _, _. split; [reflexivity |]. simpl. repeat split; auto; lia. }
  unfold bind, ensureConnected, call, lift.
  assert (Hq : queries (h ++ [EvConnect]) = queries h) by by apply queries_snoc.
  destruct (mongo_connect w h) as [[] | e].
  2: { eexists _, _. split; [reflexivity |]. simpl. repeat split; auto; lia. }
  destruct (getCollectionName contentType) as [collection | e].
  2: { eexists _, _. split; [reflexivity |]. simpl. repeat split; auto; lia. }
  destruct (forContentData w collection contentType ucs contentData [] (h ++ [EvConnect]))
    as [[recs err] h'] eqn:E.
  apply forContentData_spec in E as (Hq' & Hle & added & -> & Hfresh); [| simpl; lia].
  eexists _, _. split; [reflexivity |]. simpl. split; [congruence |]. done.
Qed.

Lemma findSequelsAndSeries_stop w pre post contentType ucs h recs h' :
  findSequelsAndSeries w pre contentType ucs h = (Ok recs, h') ->
  (10 <= length recs)%nat ->
  findSequelsAndSeries w (pre ++ post) contentType ucs h = (Ok recs, h').
Proof.
  unfold findSequelsAndSeries. rewrite length_app.
  destruct pre as [| content pre]; [unfold ret; intros [= <- <-]; simpl; lia |].
  cbn [length Nat.add Nat.eqb].
  unfold bind, ensureConnected, call, lift.
  destruct (mongo_connect w h) as [[] | e]; [| intros [= <- <-]; simpl; lia].
  destruct (getCollectionName contentType) as [collection | e];
    [| intros [= <- <-]; simpl; lia].
  destruct (forContentData w collection contentType ucs (content :: pre) [] (h ++ [EvConnect]))
    as [[recs0 err] h0] eqn:E.
  intros [= <- <-] Hge.
  rewrite (forContentData_stop _ _ _ _ _ post [] _ _ _ _ ltac:(simpl; lia) E Hge).
  reflexivity.
Qed.

(** C4: one consumed item adds at most three candidates, the detector
    returns at most ten, and once ten are reached the remaining items are
    not processed. *)
Theorem sequel_detector_caps (w : World) (contentType : string)
    (userContentSet : gset string) :
  (forall collection content recommendations h recommendations' c h',
      processContent w collection contentType userContentSet content
                     recommendations h = (Ok (recommendations', c), h') ->
      exists added,
        recommendations' = recommendations ++ added /\ (length added <= 3)%nat)
  /\ (forall contentData h, exists recs h',
        findSequelsAndSeries w contentData contentType userContentSet h = (Ok recs, h')
        /\ (length recs <= 10)%nat)
  /\ (forall processedItems furtherItems h recs h',
        findSequelsAndSeries w processedItems contentType userContentSet h = (Ok recs, h') ->
        (10 <= length recs)%nat ->
        findSequelsAndSeries w (processedItems ++ furtherItems) contentType
                             userContentSet h = (Ok recs, h')).
Proof.
  split; [| split].
  - intros collection content recs h recs' c h' E.
    apply processContent_spec in E as [_ (added & -> & Hle & _)]. eauto.
  - intros contentData h.
    destruct (findSequelsAndSeries_spec w contentData contentType userContentSet h)
      as (recs & h' & E & _ & Hle & _). eauto.
  - intros pre post h recs h'. apply findSequelsAndSeries_stop.
Qed.

(** ** RecommendationAggregator *)

Lemma findSequelsAndSeries_nil w contentType ucs h :
  findSequelsAndSeries w [] contentType ucs h = (Ok [], h).
Proof. reflexivity. Qed.

(** C3: when the sequel phase yields at least [perTypeCount] candidates, the
    bucket is [sequelRecs.slice(0, perTypeCount)], which for a non-negative
    [perTypeCount] is the first [perTypeCount] sequel candidates; the vector
    index is not queried and every returned candidate is a sequel
    candidate. *)
Theorem sequels_take_priority (w : World) (contentData : list (option Doc))
    (contentType : string) (perTypeCount : Z) (userContentSet : gset string)
    (h : history) (sequelRecs : list Rec) (h1 : history) :
  findSequelsAndSeries w contentData contentType userContentSet h
    = (Ok sequelRecs, h1) ->
  perTypeCount <= Z.of_nat (length sequelRecs) ->
  getRecommendationsByType w contentData contentType perTypeCount userContentSet h
    = (Ok (slice0 sequelRecs perTypeCount), h1)
  /\ (0 <= perTypeCount ->
      slice0 sequelRecs perTypeCount = take (Z.to_nat perTypeCount) sequelRecs)
  /\ queries h1 = queries h
  /\ slice0 sequelRecs perTypeCount `sublist_of` sequelRecs.
Proof.
  intros E Hge.
  split; [| split; [apply slice0_nonneg | split; [| apply slice0_sublist]]].
  - unfold getRecommendationsByType.
    destruct contentData as [| content rest].
    + rewrite findSequelsAndSeries_nil in E. injection E as <- <-.
      unfold slice0. destruct (perTypeCount <? 0); by rewrite take_nil.
    + cbn [length Nat.eqb].
      unfold try_catch, getRecommendationsByType_try.
      rewrite (bind_ok _ _ _ _ _ E).
      destruct (Z.geb_spec (Z.of_nat (length sequelRecs)) perTypeCount); [| lia].
      reflexivity.
  - destruct (findSequelsAndSeries_spec w contentData contentType userContentSet h)
      as (recs & h' & E' & Hq & _).
    rewrite E in E'. injection E' as <- <-. exact Hq.
Qed.

Lemma catch_scope_lacks_sequelRecs :
  resolve catch_scope "sequelRecs" = Throw (ReferenceError "sequelRecs").
Proof. reflexivity. Qed.

Lemma getRecommendationsByType_catch_throws error h :
  getRecommendationsByType_catch error h = (Throw (ReferenceError "sequelRecs"), h).
Proof.
  unfold getRecommendationsByType_catch.
  rewrite catch_scope_lacks_sequelRecs. reflexivity.
Qed.

Lemma getRecommendationsByType_try_nil w contentType perTypeCount ucs h :
  exists recs, getRecommendationsByType_try w [] contentType perTypeCount ucs h = (Ok recs, h).
Proof.
  unfold getRecommendationsByType_try, bind. rewrite findSequelsAndSeries_nil.
  destruct (_ >=? _); [unfold ret; eauto |].
  unfold similarityStep. simpl. unfold bind, lift, ret. simpl. eauto.
Qed.

(** C10: an exception inside the [try] block of [getRecommendationsByType]
    reaches a [catch] clause in which [sequelRecs] is not bound, so the
    function throws a [ReferenceError] instead of returning the sequel
    candidates, and the caller's [.catch] puts an empty bucket in their
    place. *)
Theorem fallback_out_of_scope (w : World) (contentData : list (option Doc))
    (contentType : string) (perTypeCount : Z) (userContentSet : gset string)
    (h : history) (e : js_error) (h1 : history) :
  getRecommendationsByType_try w contentData contentType perTypeCount
                               userContentSet h = (Throw e, h1) ->
  resolve catch_scope "sequelRecs" = Throw (ReferenceError "sequelRecs")
  /\ getRecommendationsByType w contentData contentType perTypeCount
                              userContentSet h
     = (Throw (ReferenceError "sequelRecs"), h1)
  /\ recommendationPromise w contentData contentType perTypeCount
                           userContentSet h
     = (Ok [], h1).
Proof.
  intros E. split; [reflexivity |].
  destruct contentData as [| content rest].
  { destruct (getRecommendationsByType_try_nil w contentType perTypeCount userContentSet h)
      as (recs & E'). congruence. }
  assert (Hthrow : getRecommendationsByType w (content :: rest) contentType perTypeCount
                     userContentSet h = (Throw (ReferenceError "sequelRecs"), h1)).
  { unfold getRecommendationsByType. cbn [length Nat.eqb].
    rewrite (try_catch_throw _ _ _ _ _ E).
    apply getRecommendationsByType_catch_throws. }
  split; [exact Hthrow |].
  unfold recommendationPromise. cbn [length Nat.ltb Nat.leb].
  rewrite (try_catch_throw _ _ _ _ _ Hthrow). reflexivity.
Qed.











(** ** RecommendationOrchestrator *)

(** C7: [recommendForUser] never throws; it returns the empty result when
    the profile lookup yields [null] and when a step of its body throws. *)
Theorem recommendForUser_never_throws (w : World) :
  (forall userIds topK, total (recommendForUser w userIds topK))
  /\ (forall userId others topK h h1,
        getUserContentLists w userId h = (Ok None, h1) ->
        recommendForUser w (Value (userId :: others)) topK h = (Ok EmptyArray, h1))
  /\ (forall userIds topK h e h1,
        recommendForUser_try w userIds topK h = (Throw e, h1) ->
        recommendForUser w userIds topK h = (Ok EmptyArray, h1)).
Proof.
  split; [| split].
  - intros userIds topK. apply total_try_catch_ret.
  - intros userId others topK h h1 E.
    unfold recommendForUser, try_catch, recommendForUser_try.
    unfold lift at 1. unfold bind at 1. cbv iota beta.
    rewrite (bind_ok _ _ _ _ _ E). reflexivity.
  - intros userIds topK h e h1 E.
    unfold recommendForUser. rewrite (try_catch_throw _ _ _ _ _ E). reflexivity.
Qed.

Lemma getUserContentLists_total w userId : total (getUserContentLists w userId).
Proof. apply total_try_catch_ret. Qed.

(** ** Series identity *)

Lemma advanced_refl st : advanced st [] st.
Proof. split; simpl; [done | lia]. Qed.

Lemma advanced_trans st t1 st1 t2 st2 :
  advanced st t1 st1 -> advanced st1 t2 st2 -> advanced st (t1 ++ t2) st2.
Proof.
  intros [E1 P1] [E2 P2]. split.
  - rewrite E1, E2. by rewrite app_assoc.
  - rewrite length_app. lia.
Qed.

Lemma iter_advanced (R : mstate -> mstate -> Prop) :
  (forall st st', R st st' -> exists t, advanced st t st') ->
  forall st st', iter R st st' -> exists t, advanced st t st'.
Proof.
  intros HR st st' Hi. induction Hi as [st | st st1 st2 H1 _ _ [t2 IH]].
  - exists []. apply advanced_refl.
  - destruct (HR _ _ H1) as [t1 H]. exists (t1 ++ t2). by eapply advanced_trans.
Qed.

Lemma consumes_advanced r :
  forall st st', consumes r st st' -> exists t, advanced st t st'.
Proof.
  induction r as [p | r1 IH1 r2 IH2 | r1 IH1 r2 IH2 | g r1 IH1 | r1 IH1 | |];
    intros st st'; cbn [consumes].
  - intros (c & s' & E & _ & ->). exists [c]. split; simpl; [done | lia].
  - intros (st1 & H1 & H2). destruct (IH1 _ _ H1) as [t1 A1].
    destruct (IH2 _ _ H2) as [t2 A2]. exists (t1 ++ t2). by eapply advanced_trans.
  - intros [H | H]; eauto.
  - by apply iter_advanced.
  - intros (st1 & H1 & ->). destruct (IH1 _ _ H1) as [t1 A1]. by exists t1.
  - intros [_ ->]. exists []. apply advanced_refl.
  - intros [_ ->]. exists []. apply advanced_refl.
Qed.

Lemma iter_cap (R : mstate -> mstate -> Prop) :
  (forall st st', R st st' -> cap1 st' = cap1 st) ->
  forall st st', iter R st st' -> cap1 st' = cap1 st.
Proof.
  intros HR st st' Hi. induction Hi as [st | st st1 st2 H1 _ _ IH]; [done |].
  rewrite IH. by apply HR.
Qed.

Lemma consumes_cap r :
  group_free r = true ->
  forall st st', consumes r st st' -> cap1 st' = cap1 st.
Proof.
  induction r as [p | r1 IH1 r2 IH2 | r1 IH1 r2 IH2 | g r1 IH1 | r1 IH1 | |];
    cbn [group_free consumes]; intros Hg st st'.
  - by intros (c & s' & _ & _ & ->).
  - apply andb_true_iff in Hg as [G1 G2]. intros (st1 & H1 & H2).
    rewrite (IH2 G2 _ _ H2). by apply IH1.
  - apply andb_true_iff in Hg as [G1 G2]. intros [H | H]; auto.
  - apply iter_cap. auto.
  - discriminate.
  - by intros [_ ->].
  - by intros [_ ->].
Qed.

(** The matcher is sound: what it returns, the pattern consumes. *)
Lemma star_loop_sound greedy body (R : mstate -> mstate -> Prop) :
  (forall st k res, body st k = Some res ->
     exists st', R st st' /\ k st' = Some res) ->
  forall fuel st k res,
    star_loop greedy body k fuel st = Some res ->
    exists st', iter R st st' /\ k st' = Some res.
Proof.
  intros Hbody. induction fuel as [| fuel IH]; intros st k res; cbn [star_loop].
  - intros E. exists st. split; [constructor | done].
  - set (more := body st _).
    assert (Hmore : more = Some res ->
                    exists st', iter R st st' /\ k st' = Some res).
    { intros E. apply Hbody in E as (st1 & H1 & E).
      destruct (Nat.eqb_spec (pos st1) (pos st)) as [| Hne]; [discriminate |].
      apply IH in E as (st2 & H2 & E). exists st2. split; [| done].
      by eapply iter_step. }
    assert (Hstop : k st = Some res ->
                    exists st', iter R st st' /\ k st' = Some res).
    { intros E. exists st. split; [constructor | done]. }
    destruct greedy.
    + destruct more as [res' |]; [intros [= ->]; by apply Hmore | apply Hstop].
    + destruct (k st) as [res' |]; [intros [= ->]; by apply Hstop | apply Hmore].
Qed.

Lemma rmatch_sound r :
  forall st k res,
    rmatch r st k = Some res ->
    exists st', consumes r st st' /\ k st' = Some res.
Proof.
  induction r as [p | r1 IH1 r2 IH2 | r1 IH1 r2 IH2 | g r1 IH1 | r1 IH1 | |];
    intros st k res; cbn [rmatch consumes].
  - destruct (rest st) as [| c s'] eqn:E; [discriminate |].
    destruct (p c) eqn:Hp; [| discriminate].
    intros Hk. eexists. split; [| exact Hk]. by exists c, s'.
  - intros E. apply IH1 in E as (st1 & H1 & E).
    apply IH2 in E as (st2 & H2 & E). exists st2. split; [| done]. by exists st1.
  - destruct (rmatch r1 st k) as [res' |] eqn:E1.
    + intros [= ->]. apply IH1 in E1 as (st' & H & E). exists st'. auto.
    + intros E2. apply IH2 in E2 as (st' & H & E). exists st'. auto.
  - apply star_loop_sound. apply IH1.
  - intros E. apply IH1 in E as (st1 & H1 & E). eexists. split; [| exact E].
    by exists st1.
  - destruct (Nat.eqb_spec (pos st) 0); [| discriminate]. intros E.
    exists st. auto.
  - destruct (rest st) eqn:E; [| discriminate]. intros Hk. exists st. auto.
Qed.

(** The matcher is complete: it finds a match whenever the pattern can
    consume a part of the input that the continuation accepts. *)
Lemma star_loop_complete greedy body (R : mstate -> mstate -> Prop) :
  (forall st st' k, R st st' -> k st' <> None -> body st k <> None) ->
  (forall st st', R st st' -> exists t, advanced st t st') ->
  forall st st', iter R st st' ->
  forall k fuel, (length (rest st) < fuel)%nat -> k st' <> None ->
    star_loop greedy body k fuel st <> None.
Proof.
  intros Hbody Hadv st st' Hi.
  induction Hi as [st | st st1 st2 H1 Hne H2 IH]; intros k fuel Hfuel Hk.
  - destruct fuel as [| fuel]; cbn [star_loop]; [done |].
    destruct greedy.
    + by destruct (body st _).
    + by destruct (k st).
  - destruct fuel as [| fuel]; [lia |]. cbn [star_loop].
    set (more := body st _).
    assert (Hmore : more <> None).
    { apply (Hbody _ _ _ H1).
      destruct (Nat.eqb_spec (pos st1) (pos st)); [done |].
      apply IH; [| done].
      destruct (Hadv _ _ H1) as (t & E & P). rewrite E, length_app in Hfuel.
      destruct t; simpl in *; lia. }
    destruct greedy.
    + by destruct more.
    + by destruct (k st).
Qed.

Lemma rmatch_complete r :
  forall st st' k,
    consumes r st st' -> k st' <> None -> rmatch r st k <> None.
Proof.
  induction r as [p | r1 IH1 r2 IH2 | r1 IH1 r2 IH2 | g r1 IH1 | r1 IH1 | |];
    intros st st' k; cbn [rmatch consumes].
  - intros (c & s' & -> & -> & ->). done.
  - intros (st1 & H1 & H2) Hk. eapply IH1; [exact H1 |]. by eapply IH2.
  - intros [H | H] Hk.
    + pose proof (IH1 _ _ _ H Hk). by destruct (rmatch r1 st k).
    + destruct (rmatch r1 st k); [done |]. by eapply IH2.
  - intros H Hk. eapply star_loop_complete; eauto using consumes_advanced.
  - intros (st1 & H1 & ->) Hk. by eapply IH1.
  - intros [-> ->] Hk. done.
  - intros [-> ->] Hk. done.
Qed.

(** The lazy prefix stops at the first place where the rest of the pattern
    matches. *)
Lemma lazy_scan (p : codeunit -> bool) (K : mstate -> option mstate) cap :
  forall s fuel n, (length s < fuel)%nat ->
    match star_loop false (rmatch (RChar p)) K fuel (mkState n s cap) with
    | Some res =>
        exists g s', s = g ++ s' /\ Forall (fun c => p c = true) g
          /\ K (mkState (n + length g) s' cap) = Some res
          /\ forall g' s'', s = g' ++ s'' -> (length g' < length g)%nat ->
               K (mkState (n + length g') s'' cap) = None
    | None =>
        forall g s', s = g ++ s' -> Forall (fun c => p c = true) g ->
          K (mkState (n + length g) s' cap) = None
    end.
Proof.
  induction s as [| c s IH]; intros fuel n Hfuel;
    (destruct fuel as [| fuel]; [simpl in Hfuel; lia |]);
    cbn [star_loop rmatch rest pos cap1].
  - destruct (K (mkState n [] cap)) as [res |] eqn:EK.
    + exists [], []. simpl. rewrite Nat.add_0_r. repeat split; auto. intros; lia.
    + intros g s' E _. symmetry in E. apply app_eq_nil in E as [-> ->].
      simpl. by rewrite Nat.add_0_r.
  - destruct (K (mkState n (c :: s) cap)) as [res |] eqn:EK.
    + exists [], (c :: s). simpl. rewrite Nat.add_0_r. repeat split; auto.
      intros; lia.
    + destruct (p c) eqn:Hp.
      * destruct (Nat.eqb_spec (S n) n) as [| _]; [lia |].
        specialize (IH fuel (S n) ltac:(simpl in Hfuel; lia)).
        destruct (star_loop false _ K fuel _) as [res |].
        -- destruct IH as (g & s' & -> & Hg & Hk & Hmin).
           exists (c :: g), s'. simpl. rewrite Nat.add_succ_r.
           repeat split; auto.
           intros g' s'' E Hlt. destruct g' as [| c' g'].
           ++ simpl in E. subst s''. simpl. by rewrite Nat.add_0_r.
           ++ injection E as <- E. simpl. rewrite Nat.add_succ_r.
              apply Hmin; [done | simpl in Hlt; lia].
        -- intros g s' E Hg. destruct g as [| c' g].
           ++ simpl in E. subst s'. simpl. by rewrite Nat.add_0_r.
           ++ injection E as <- E. simpl. rewrite Nat.add_succ_r.
              inversion Hg; subst. by apply IH.
      * intros g s' E Hg. destruct g as [| c' g].
        -- simpl in E. subst s'. simpl. by rewrite Nat.add_0_r.
        -- injection E as <- E. inversion Hg; subst. congruence.
Qed.

Lemma exec_from_anchored r input :
  forall remaining start, (0 < start)%nat ->
    exec_from (RSeq RBegin r) input start remaining = None.
Proof.
  induction remaining as [| c remaining IH]; intros start Hs;
    cbn [exec_from rmatch pos];
    (destruct (Nat.eqb_spec start 0); [lia |]); [done |].
  apply IH. lia.
Qed.

Lemma is_dot_spec c : is_dot c = true <-> c ∉ lineTerminators.
Proof.
  unfold is_dot, lineTerminators.
  rewrite negb_true_iff, !orb_false_iff, !N.eqb_neq.
  rewrite !not_elem_of_cons. pose proof (not_elem_of_nil c). tauto.
Qed.

Lemma str_match_anchored r title :
  str_match title (RSeq RBegin r)
  = match rmatch (RSeq RBegin r) (mkState 0 title None) Some with
    | Some st =>
        Some (mkMatchObj
                (slice title 0 (pos st))
                (match cap1 st with
                 | Some (b, e) => Some (slice title b e)
                 | None => None
                 end))
    | None => None
    end.
Proof.
  unfold str_match. destruct title as [| c title']; cbn [exec_from];
    destruct (rmatch _ _ _); try done.
  apply exec_from_anchored. lia.
Qed.

Section Prefixed.
Variable tail : regex.
Variable token : jsstring -> Prop.
Hypothesis tail_group_free : group_free tail = true.
Hypothesis tail_token :
  forall st, (exists st', consumes tail st st') <-> token (rest st).

Lemma tail_rmatch st :
  match rmatch tail st Some with
  | Some res => token (rest st) /\ cap1 res = cap1 st
  | None => ~ token (rest st)
  end.
Proof.
  destruct (rmatch tail st Some) as [res |] eqn:E.
  - apply rmatch_sound in E as (st' & H & [= ->]). split.
    + apply tail_token. eauto.
    + by apply consumes_cap in H.
  - intros Ht. apply tail_token in Ht as [st' H].
    by apply (rmatch_complete tail st st' Some) in H.
Qed.

Lemma prefixed_match title :
  match str_match title (prefixed tail) with
  | Some m => exists g, m1 m = Some g /\ shortestPrefix token title g
  | None => ~ recognised token title
  end.
Proof.
  unfold prefixed. rewrite str_match_anchored.
  cbn [rmatch pos rest cap1 Nat.eqb lazy_prefix].
  pose proof (lazy_scan is_dot
    (fun st' => rmatch tail
       (mkState (pos st') (rest st') (Some (0%nat, pos st'))) Some)
    None title (S (length title)) 0 ltac:(lia)) as Hscan.
  assert (Hdot : forall g, Forall (fun c => is_dot c = true) g
                           <-> Forall (fun c => c ∉ lineTerminators) g).
  { intros g. apply Forall_iff. intros c. apply is_dot_spec. }
  destruct (star_loop false _ _ _ _) as [res |].
  - destruct Hscan as (g & s' & E & Hg & Hk & Hmin).
    cbn [pos rest Nat.add] in Hk.
    pose proof (tail_rmatch (mkState (length g) s' (Some (0%nat, length g)))) as Ht.
    rewrite Hk in Ht. cbn [rest cap1] in Ht. destruct Ht as [Ht ->].
    exists g. cbn [m1]. split.
    { unfold slice. by rewrite Nat.sub_0_r, drop_0, E, take_app_length. }
    split.
    + exists s'. by rewrite <- Hdot.
    + intros g' (s'' & E' & Hg' & Ht').
      destruct (Nat.le_gt_cases (length g) (length g')) as [| Hlt]; [done |].
      specialize (Hmin g' s'' E' Hlt). cbn [pos rest Nat.add] in Hmin.
      pose proof (tail_rmatch (mkState (length g') s'' (Some (0%nat, length g')))) as Ht2.
      rewrite Hmin in Ht2. by destruct Ht2.
  - intros (g & s' & E & Hg & Ht). apply Hdot in Hg.
    specialize (Hscan g s' E Hg). cbn [pos rest Nat.add] in Hscan.
    pose proof (tail_rmatch (mkState (length g) s' (Some (0%nat, length g)))) as Ht2.
    rewrite Hscan in Ht2. by destruct Ht2.
Qed.

End Prefixed.

Lemma reads_ext (L L' : jsstring -> Prop) r :
  (forall t, L t <-> L' t) -> reads L r -> reads L' r.
Proof.
  intros HL Hr st st'. rewrite (Hr st st').
  split; intros (t & s' & H & E); exists t, s'; split; auto; by apply HL.
Qed.

Lemma ends_ext (E E' : jsstring -> Prop) r :
  (forall s, E s <-> E' s) -> ends E r -> ends E' r.
Proof. intros HE Hr st. rewrite (Hr st). apply HE. Qed.

Lemma reads_char p :
  reads (fun t => exists c, t = [c] /\ p c = true) (RChar p).
Proof.
  intros st st'. cbn [consumes]. split.
  - intros (c & s' & E & Hp & ->). exists [c], s'. simpl.
    rewrite Nat.add_1_r. eauto.
  - intros (t & s' & (c & -> & Hp) & E & ->). exists c, s'. simpl.
    rewrite Nat.add_1_r. auto.
Qed.

Lemma reads_seq L1 L2 r1 r2 :
  reads L1 r1 -> reads L2 r2 ->
  reads (fun t => exists t1 t2, t = t1 ++ t2 /\ L1 t1 /\ L2 t2) (RSeq r1 r2).
Proof.
  intros H1 H2 st st'. cbn [consumes]. split.
  - intros (st1 & C1 & C2).
    apply H1 in C1 as (t1 & s1 & HL1 & E1 & ->).
    apply H2 in C2 as (t2 & s2 & HL2 & E2 & ->). cbn [rest pos cap1] in *.
    exists (t1 ++ t2), s2. split; [by exists t1, t2 |].
    rewrite E1, E2, <- app_assoc, length_app, Nat.add_assoc. auto.
  - intros (t & s' & (t1 & t2 & -> & HL1 & HL2) & E & ->).
    exists (mkState (pos st + length t1) (t2 ++ s') (cap1 st)). split.
    + apply H1. exists t1, (t2 ++ s'). by rewrite E, <- app_assoc.
    + apply H2. exists t2, s'. cbn [rest pos cap1].
      by rewrite length_app, Nat.add_assoc.
Qed.

Lemma reads_alt L1 L2 r1 r2 :
  reads L1 r1 -> reads L2 r2 -> reads (fun t => L1 t \/ L2 t) (RAlt r1 r2).
Proof.
  intros H1 H2 st st'. cbn [consumes]. rewrite (H1 st st'), (H2 st st').
  split.
  - intros [(t & s' & H & E) | (t & s' & H & E)]; exists t, s'; auto.
  - intros (t & s' & [H | H] & E); [left | right]; exists t, s'; auto.
Qed.

Lemma iter_char p st st' :
  iter (consumes (RChar p)) st st'
  <-> exists t s', Forall (fun c => p c = true) t /\ rest st = t ++ s'
                   /\ st' = mkState (pos st + length t) s' (cap1 st).
Proof.
  split.
  - intros Hi. induction Hi as [st | st st1 st2 H1 _ _ IH].
    + exists [], (rest st). split; [constructor |]. split; [done |].
      destruct st. simpl. by rewrite Nat.add_0_r.
    + destruct H1 as (c & s1 & E & Hp & ->).
      destruct IH as (t & s' & Ht & E' & ->). cbn [rest pos cap1] in *.
      exists (c :: t), s'. split; [by constructor |]. rewrite E, E'. simpl.
      by rewrite Nat.add_succ_r.
  - intros (t & s' & Ht & E & ->). revert st E.
    induction Ht as [| c t Hp Ht IH]; intros st E.
    + simpl in *. rewrite Nat.add_0_r.
      replace (mkState (pos st) s' (cap1 st)) with st
        by (destruct st; simpl in *; by subst).
      constructor.
    + eapply (iter_step _ _ (mkState (S (pos st)) (t ++ s') (cap1 st))).
      * by exists c, (t ++ s').
      * simpl. lia.
      * specialize (IH (mkState (S (pos st)) (t ++ s') (cap1 st)) eq_refl).
        cbn [pos rest cap1] in IH. simpl. by rewrite Nat.add_succ_r.
Qed.

Lemma reads_plus p :
  reads (fun t => t <> [] /\ Forall (fun c => p c = true) t) (RPlus (RChar p)).
Proof.
  intros st st'. unfold RPlus. cbn [consumes]. split.
  - intros (st1 & (c & s1 & E & Hp & ->) & Hi).
    apply iter_char in Hi as (t & s' & Ht & E' & ->). cbn [rest pos cap1] in *.
    exists (c :: t), s'. split; [split; [done | by constructor] |].
    rewrite E, E'. simpl. by rewrite Nat.add_succ_r.
  - intros (t & s' & [Hne Ht] & E & ->).
    destruct Ht as [| c t Hp Ht]; [done |].
    exists (mkState (S (pos st)) (t ++ s') (cap1 st)). split.
    + by exists c, (t ++ s').
    + apply iter_char. exists t, s'. cbn [rest pos cap1]. simpl.
      by rewrite Nat.add_succ_r.
Qed.

Lemma ends_followed L E r1 r2 :
  reads L r1 -> ends E r2 -> ends (followed L E) (RSeq r1 r2).
Proof.
  intros H1 H2 st. cbn [consumes]. split.
  - intros (st' & st1 & C1 & C2).
    apply H1 in C1 as (t & s' & HL & Est & ->).
    exists t, s'. split; [done |]. split; [done |].
    apply (H2 (mkState (pos st + length t) s' (cap1 st))). eauto.
  - intros (t & s' & Est & HL & HE).
    apply (H2 (mkState (pos st + length t) s' (cap1 st))) in HE as [st' C2].
    exists st', (mkState (pos st + length t) s' (cap1 st)). split; [| done].
    apply H1. by exists t, s'.
Qed.

Lemma ends_alt E1 E2 r1 r2 :
  ends E1 r1 -> ends E2 r2 -> ends (fun s => E1 s \/ E2 s) (RAlt r1 r2).
Proof.
  intros H1 H2 st. cbn [consumes]. rewrite <- (H1 st), <- (H2 st).
  split.
  - intros (st' & [C | C]); eauto.
  - intros [[st' C] | [st' C]]; eauto.
Qed.

Lemma ends_reads L r : reads L r -> ends (followed L (fun _ => True)) r.
Proof.
  intros H st. split.
  - intros (st' & C). apply H in C as (t & s' & HL & E & _). by exists t, s'.
  - intros (t & s' & E & HL & _). eexists. apply H. by exists t, s'.
Qed.

Lemma ends_end : ends (fun s => s = []) REnd.
Proof.
  intros st. cbn [consumes]. split; [by intros (st' & E & _) | eauto].
Qed.

(** The character classes, code unit by code unit. *)
Lemma is_space_spec c : is_space c = true <-> c ∈ whiteSpace.
Proof.
  unfold is_space, whiteSpace.
  rewrite !orb_true_iff, !andb_true_iff, !N.eqb_eq, !N.leb_le.
  rewrite !elem_of_cons, elem_of_nil. lia.
Qed.

Lemma is_digit_spec c : is_digit c = true <-> c ∈ js "0123456789".
Proof.
  unfold is_digit. change (js "0123456789")
    with [48; 49; 50; 51; 52; 53; 54; 55; 56; 57]%N.
  rewrite !andb_true_iff, !N.leb_le.
  rewrite !elem_of_cons, elem_of_nil. lia.
Qed.

Lemma is_roman_spec c : is_roman c = true <-> c ∈ js "IVXLCDMivxlcdm".
Proof.
  unfold is_roman, upper. change (js "IVXLCDMivxlcdm")
    with [73; 86; 88; 76; 67; 68; 77; 105; 118; 120; 108; 99; 100; 109]%N.
  cbn [existsb code N_of_ascii N_of_digits]. 
  rewrite !elem_of_cons, elem_of_nil.
  destruct ((97 <=? c)%N && (c <=? 122)%N) eqn:E.
  - apply andb_true_iff in E as [E1 E2]. apply N.leb_le in E1, E2.
    rewrite !orb_true_iff, !N.eqb_eq. simpl. lia.
  - apply andb_false_iff in E. rewrite !N.leb_gt in E.
    rewrite !orb_true_iff, !N.eqb_eq. simpl. lia.
Qed.

Lemma ci_lower a c :
  lowerCase a = true ->
  ci a c = true <-> c = code a \/ (c + 32)%N = code a.
Proof.
  unfold lowerCase, ci, upper. intros Ha. rewrite Ha.
  apply andb_true_iff in Ha as [H1 H2]. apply N.leb_le in H1, H2.
  rewrite N.eqb_eq.
  destruct ((97 <=? c)%N && (c <=? 122)%N) eqn:E.
  - apply andb_true_iff in E as [E1 E2]. apply N.leb_le in E1, E2. lia.
  - apply andb_false_iff in E. rewrite !N.leb_gt in E. lia.
Qed.

Lemma ci_mark a c :
  (code a < 65)%N -> ci a c = true <-> c = code a.
Proof.
  unfold ci, upper. intros Ha.
  replace ((97 <=? code a)%N && (code a <=? 122)%N) with false
    by (symmetry; apply andb_false_iff; left; apply N.leb_gt; lia).
  rewrite N.eqb_eq.
  destruct ((97 <=? c)%N && (c <=? 122)%N) eqn:E.
  - apply andb_true_iff in E as [E1 E2]. apply N.leb_le in E1, E2. lia.
  - done.
Qed.

Lemma reads_separator : reads isSeparator separator.
Proof.
  unfold separator. cbn [RAlts].
  eapply reads_ext;
    [| exact (reads_alt _ _ _ _ (reads_plus is_space)
                (reads_alt _ _ _ _ (reads_char (ci "-")) (reads_char (ci ":"))))].
  intros t. unfold isSeparator. cbv beta.
  assert (Hs : Forall (fun c => is_space c = true) t
               <-> Forall (fun c => c ∈ whiteSpace) t).
  { apply Forall_iff. intros c. apply is_space_spec. }
  rewrite Hs.
  assert (Hd : (exists c, t = [c] /\ ci "-" c = true) <-> t = js "-").
  { split.
    - intros (c & -> & Hc). apply ci_mark in Hc; [by subst | done].
    - intros ->. by exists 45%N. }
  assert (Hc : (exists c, t = [c] /\ ci ":" c = true) <-> t = js ":").
  { split.
    - intros (c & -> & Hc). apply ci_mark in Hc; [by subst | done].
    - intros ->. by exists 58%N. }
  rewrite Hd, Hc. done.
Qed.

Lemma reads_numeral : reads isNumeral numeral.
Proof.
  unfold numeral.
  eapply reads_ext;
    [| exact (reads_alt _ _ _ _ (reads_plus is_digit) (reads_plus is_roman))].
  intros t. unfold isNumeral. cbv beta.
  assert (Hd : Forall (fun c => is_digit c = true) t
               <-> Forall (fun c => c ∈ js "0123456789") t).
  { apply Forall_iff. intros c. apply is_digit_spec. }
  assert (Hr : Forall (fun c => is_roman c = true) t
               <-> Forall (fun c => c ∈ js "IVXLCDMivxlcdm") t).
  { apply Forall_iff. intros c. apply is_roman_spec. }
  rewrite Hd, Hr. tauto.
Qed.

Lemma reads_word first others :
  forallb lowerCase (first :: list_ascii_of_string others) = true ->
  reads (spells (String first others)) (RWord first others).
Proof.
  revert first. induction others as [| a others IH]; intros first Hl;
    cbn [forallb] in Hl; apply andb_true_iff in Hl as [Hf Hl]; cbn [RWord].
  - eapply reads_ext; [| apply reads_char]. intros t. unfold spells. simpl.
    split.
    + intros (c & -> & Hc). apply (ci_lower _ _ Hf) in Hc.
      constructor; [done | constructor].
    + intros H. inversion H as [| a c l t' Hc Ht]; subst.
      inversion Ht; subst. exists c. split; [done |]. by apply ci_lower.
  - eapply reads_ext; [| exact (reads_seq _ _ _ _ (reads_char _) (IH a Hl))].
    intros t. unfold spells. cbn [list_ascii_of_string]. split.
    + intros (t1 & t2 & -> & (c & -> & Hc) & Ht).
      apply (ci_lower _ _ Hf) in Hc. by constructor.
    + intros H. inversion H as [| a' c l t' Hc Ht]; subst.
      exists [c], t'. split; [done |]. split; [| done].
      exists c. split; [done |]. by apply ci_lower.
Qed.

Lemma reads_seasonWord : reads (isOneOf seasonWords) seasonWord.
Proof.
  unfold seasonWord. cbn [RAlts].
  eapply reads_ext;
    [| exact (reads_alt _ _ _ _ (reads_word "s" "eason" eq_refl)
                (reads_alt _ _ _ _ (reads_word "p" "art" eq_refl)
                   (reads_word "c" "hapter" eq_refl)))].
  intros t. unfold isOneOf, seasonWords.
  rewrite !Exists_cons, Exists_nil. tauto.
Qed.

Lemma reads_franchiseWord : reads (isOneOf franchiseWords) franchiseWord.
Proof.
  unfold franchiseWord. cbn [RAlts].
  eapply reads_ext;
    [| exact (reads_alt _ _ _ _ (reads_word "t" "he" eq_refl)
               (reads_alt _ _ _ _ (reads_word "a" "" eq_refl)
               (reads_alt _ _ _ _ (reads_word "a" "n" eq_refl)
               (reads_alt _ _ _ _ (reads_word "o" "rigins" eq_refl)
               (reads_alt _ _ _ _ (reads_word "r" "eturns" eq_refl)
               (reads_alt _ _ _ _ (reads_word "r" "ises" eq_refl)
               (reads_alt _ _ _ _ (reads_word "f" "orever" eq_refl)
                  (reads_word "b" "egins" eq_refl))))))))].
  intros t. unfold isOneOf, franchiseWords.
  rewrite !Exists_cons, Exists_nil. tauto.
Qed.

Lemma ends_separator_or_end : ends tokenEnds separator_or_end.
Proof.
  assert (H : ends tokenEnds (RAlt separator REnd)).
  { eapply ends_ext;
      [| exact (ends_alt _ _ _ _ (ends_reads _ _ reads_separator) ends_end)].
    intros s. unfold tokenEnds. tauto. }
  intros st. rewrite <- (H st). unfold separator_or_end, separator.
  cbn [RAlts consumes]. split; intros (st' & C); exists st'; tauto.
Qed.

Lemma ends_numberTail : ends numberToken numberTail.
Proof.
  unfold numberTail, numberToken. cbn [RSeqs].
  apply ends_followed; [apply reads_separator |].
  apply ends_followed; [apply reads_numeral |].
  apply ends_separator_or_end.
Qed.

Lemma ends_seasonTail : ends seasonToken seasonTail.
Proof.
  unfold seasonTail, seasonToken. cbn [RSeqs].
  apply ends_followed; [apply reads_separator |].
  apply ends_followed; [apply reads_seasonWord |].
  apply ends_followed; [apply reads_separator |].
  apply ends_followed; [apply reads_numeral |].
  apply ends_separator_or_end.
Qed.

Lemma ends_franchiseTail : ends franchiseToken franchiseTail.
Proof.
  unfold franchiseTail, franchiseToken. cbn [RSeqs].
  apply ends_followed; [apply reads_separator |].
  apply ends_followed; [apply reads_franchiseWord |].
  apply ends_separator_or_end.
Qed.

Lemma trimStart_spec s :
  exists l, s = l ++ trimStart s
    /\ Forall (fun c => c ∈ whiteSpace) l
    /\ forall c, head (trimStart s) = Some c -> c ∉ whiteSpace.
Proof.
  induction s as [| c s (l & E & Hl & Hh)]; cbn [trimStart].
  - exists []. repeat split; [constructor | done].
  - destruct (is_space c) eqn:Hc.
    + exists (c :: l). split; [cbn [app]; by f_equal |]. split; [| done].
      constructor; [by apply is_space_spec | done].
    + exists []. split; [done |]. split; [constructor |].
      intros c' [= <-] Hin. apply is_space_spec in Hin. congruence.
Qed.

Lemma trimEnd_spec s :
  exists r, s = trimEnd s ++ r
    /\ Forall (fun c => c ∈ whiteSpace) r
    /\ (forall c, last (trimEnd s) = Some c -> c ∉ whiteSpace)
    /\ (trimEnd s <> [] -> head (trimEnd s) = head s).
Proof.
  induction s as [| c s (r & E & Hr & Hl & Hh)]; cbn [trimEnd].
  - exists []. repeat split; [constructor | done].
  - destruct (trimEnd s) as [| x t] eqn:Et.
    + simpl in E. subst r. destruct (is_space c) eqn:Hc.
      * exists (c :: s). repeat split; try done.
        constructor; [by apply is_space_spec | done].
      * exists s. repeat split; try done.
        intros c' [= <-] Hin. apply is_space_spec in Hin. congruence.
    + exists r. split; [cbn [app]; by f_equal |]. repeat split; done.
Qed.

Lemma trim_spec g : isTrimOf g (trim g).
Proof.
  unfold trim.
  destruct (trimStart_spec g) as (l & El & Hl & Hhead).
  destruct (trimEnd_spec (trimStart g)) as (r & Er & Hr & Hlast & Hh).
  exists l, r. split; [by rewrite <- Er |]. repeat split; try done.
  intros c Hc. apply Hhead. rewrite <- Hh; [done |].
  intros E. by rewrite E in Hc.
Qed.

Lemma numberPattern_match title :
  match str_match title numberPattern with
  | Some m => exists g, m1 m = Some g /\ shortestPrefix numberToken title g
  | None => ~ recognised numberToken title
  end.
Proof. apply prefixed_match; [done | apply ends_numberTail]. Qed.

Lemma seasonPattern_match title :
  match str_match title seasonPattern with
  | Some m => exists g, m1 m = Some g /\ shortestPrefix seasonToken title g
  | None => ~ recognised seasonToken title
  end.
Proof. apply prefixed_match; [done | apply ends_seasonTail]. Qed.

Lemma franchisePattern_match title :
  match str_match title franchisePattern with
  | Some m => exists g, m1 m = Some g /\ shortestPrefix franchiseToken title g
  | None => ~ recognised franchiseToken title
  end.
Proof. apply prefixed_match; [done | apply ends_franchiseTail]. Qed.

Lemma extractSeriesInfo_first title first others g :
  omap id [str_match title numberPattern; str_match title seasonPattern;
           str_match title franchisePattern] = first :: others ->
  m1 first = Some g ->
  exists info, extractSeriesInfo title = Ok info
               /\ seriesName info = Some (trim g).
Proof.
  intros E Hg. unfold extractSeriesInfo. rewrite E.
  unfold group1_trim. rewrite Hg. eauto.
Qed.

Lemma extractSeriesInfo_spec title :
  exists info, extractSeriesInfo title = Ok info
               /\ seriesIdentity title (seriesName info).
Proof.
  pose proof (numberPattern_match title) as Hn.
  pose proof (seasonPattern_match title) as Hs.
  pose proof (franchisePattern_match title) as Hf.
  destruct (str_match title numberPattern) as [m |] eqn:En.
  { destruct Hn as (g & Hg & Hshort).
    destruct (extractSeriesInfo_first title m
                (omap id [str_match title seasonPattern;
                          str_match title franchisePattern]) g)
      as (info & E & Hname); [by rewrite En | done |].
    exists info. split; [done |]. left. exists g, (trim g).
    split; [done |]. split; [apply trim_spec | done]. }
  destruct (str_match title seasonPattern) as [m |] eqn:Es.
  { destruct Hs as (g & Hg & Hshort).
    destruct (extractSeriesInfo_first title m
                (omap id [str_match title franchisePattern]) g)
      as (info & E & Hname); [by rewrite En, Es | done |].
    exists info. split; [done |]. right. left. split; [done |].
    exists g, (trim g). split; [done |]. split; [apply trim_spec | done]. }
  destruct (str_match title franchisePattern) as [m |] eqn:Ef.
  { destruct Hf as (g & Hg & Hshort).
    destruct (extractSeriesInfo_first title m [] g)
      as (info & E & Hname); [by rewrite En, Es, Ef | done |].
    exists info. split; [done |]. right. right. left. do 2 (split; [done |]).
    exists g, (trim g). split; [done |]. split; [apply trim_spec | done]. }
  unfold extractSeriesInfo. rewrite En, Es, Ef. cbn [omap id mbind option_bind list_omap].
  destruct (Nat.ltb_spec 4 (length title)).
  - eexists. split; [reflexivity |]. right. right. right.
    do 3 (split; [done |]). left. done.
  - eexists. split; [reflexivity |]. right. right. right.
    do 3 (split; [done |]). right. done.
Qed.

(** The patterns give one name only. *)
Lemma trimStart_ws l x :
  Forall (fun c => c ∈ whiteSpace) l -> trimStart (l ++ x) = trimStart x.
Proof.
  induction 1 as [| c l Hc _ IH]; [done |]. cbn [app trimStart].
  apply is_space_spec in Hc. by rewrite Hc.
Qed.

Lemma trimStart_head x :
  (forall c, head x = Some c -> c ∉ whiteSpace) -> trimStart x = x.
Proof.
  destruct x as [| c x]; [done |]. intros Hh. cbn [trimStart].
  destruct (is_space c) eqn:Hc; [| done].
  apply is_space_spec in Hc. by destruct (Hh c eq_refl).
Qed.

Lemma trimEnd_ws n r :
  Forall (fun c => c ∈ whiteSpace) r -> trimEnd (n ++ r) = trimEnd n.
Proof.
  intros Hr. induction n as [| c n IH]; cbn [app trimEnd].
  - induction Hr as [| c r Hc _ IH]; [done |]. cbn [trimEnd]. rewrite IH.
    apply is_space_spec in Hc. by rewrite Hc.
  - by rewrite IH.
Qed.

Lemma trimEnd_last n :
  (forall c, last n = Some c -> c ∉ whiteSpace) -> trimEnd n = n.
Proof.
  induction n as [| c n IH]; [done |]. intros Hl. cbn [trimEnd].
  destruct n as [| d n].
  - cbn [trimEnd]. destruct (is_space c) eqn:Hc; [| done].
    apply is_space_spec in Hc. by destruct (Hl c eq_refl).
  - rewrite IH; [done |]. intros c' Hc'. apply Hl. exact Hc'.
Qed.

Lemma isTrimOf_trim g name : isTrimOf g name -> trim g = name.
Proof.
  intros (l & r & -> & Hl & Hr & Hhead & Hlast). unfold trim.
  rewrite (trimStart_ws l _ Hl).
  destruct name as [| c name].
  - cbn [app]. rewrite <- (app_nil_r r), (trimStart_ws r [] Hr). done.
  - rewrite trimStart_head; [| intros c' Hc'; apply Hhead; exact Hc'].
    by rewrite (trimEnd_ws _ r Hr), (trimEnd_last _ Hlast).
Qed.

Lemma shortestPrefix_unique token title g1 g2 :
  shortestPrefix token title g1 -> shortestPrefix token title g2 -> g1 = g2.
Proof.
  intros [H1 M1] [H2 M2].
  pose proof (M1 _ H2). pose proof (M2 _ H1).
  destruct H1 as (s1 & E1 & _), H2 as (s2 & E2 & _).
  rewrite E1 in E2. apply app_inj_1 in E2 as [? _]; [done | lia].
Qed.

Lemma namedBy_recognised token title name :
  namedBy token title name -> recognised token title.
Proof. intros (g & n & [H _] & _). by exists g. Qed.

Lemma namedBy_unique token title name1 name2 :
  namedBy token title name1 -> namedBy token title name2 -> name1 = name2.
Proof.
  intros (g1 & n1 & H1 & T1 & ->) (g2 & n2 & H2 & T2 & ->).
  rewrite (shortestPrefix_unique _ _ _ _ H1 H2) in T1.
  apply isTrimOf_trim in T1, T2. congruence.
Qed.

Lemma seriesIdentity_unique title name1 name2 :
  seriesIdentity title name1 -> seriesIdentity title name2 -> name1 = name2.
Proof.
  intros [A | [[NA B] | [(NA & NB & C) | (NA & NB & NC & D)]]]
         [A' | [[NA' B'] | [(NA' & NB' & C') | (NA' & NB' & NC' & D')]]];
    try (by eapply namedBy_unique);
    try (by destruct NA; eapply namedBy_recognised);
    try (by destruct NA'; eapply namedBy_recognised);
    try (by destruct NB; eapply namedBy_recognised);
    try (by destruct NB'; eapply namedBy_recognised);
    try (by destruct NC; eapply namedBy_recognised);
    try (by destruct NC'; eapply namedBy_recognised).
  destruct D as [[? ->] | [? ->]], D' as [[? ->] | [? ->]]; try done; lia.
Qed.

Lemma processContent_without_name w collection contentType ucs c recs h info :
  extractSeriesInfo (contentTitle c) = Ok info ->
  seriesName info = None \/ seriesName info = Some [] ->
  exists cmp,
    processContent w collection contentType ucs (Some c) recs h
    = (Ok (recs, cmp), h).
Proof.
  intros Einfo Hname.
  unfold processContent, try_catch, processContent_try.
  destruct (nonempty (contentTitle c)); cbn [negb].
  2: { unfold ret. eauto. }
  unfold bind, lift. rewrite Einfo.
  destruct Hname as [-> | ->]; cbn [nonempty length Nat.eqb negb];
    unfold ret at 1;
    destruct (10 <=? length recs)%nat; unfold ret; eauto.
Qed.

(** C5: for every title the extraction returns a series name, and it is
    the one that the three patterns fix in their order.  A pattern
    recognises a title that is a prefix without line terminator, a separator
    (white space, [-] or [:]), the token of the pattern and then a separator
    or the end of the title: the token is a numeral (digits, or letters of
    [IVXLCDM] in either case), or one of the words season, part, chapter
    with a separator and a numeral, or one of the franchise words; it need
    not end the title.  The name is the shortest such prefix for the first
    pattern that recognises the title, without the white space at its ends.
    When no pattern recognises the title, the name is the whole title if and
    only if the title is longer than 4, and there is no name otherwise.  An
    item without a name, or with an empty one, adds no candidate and sends
    no query. *)
Theorem series_identity_priority (title_ : jsstring) :
  exists info,
    extractSeriesInfo title_ = Ok info
    /\ (forall name, seriesIdentity title_ name <-> seriesName info = name)
    /\ forall w collection contentType userContentSet c recommendations h,
         contentTitle c = title_ ->
         seriesName info = None \/ seriesName info = Some [] ->
         exists cmp,
           processContent w collection contentType userContentSet (Some c)
                          recommendations h
           = (Ok (recommendations, cmp), h).
Proof.
  destruct (extractSeriesInfo_spec title_) as (info & E & Hid).
  exists info. split; [done |]. split.
  { intros name. split; [| by intros <-].
    intros Hname. by apply (seriesIdentity_unique title_). }
  intros w collection contentType ucs c recs h <- Hname.
  by eapply processContent_without_name.
Qed.

(** C5, as stated, fails: the patterns are not trailing.  In the first title
    the franchise word, and in the second the numeral, is followed by more
    of the title; the code names the series by what precedes them, where
    trailing patterns find nothing and leave the whole title. *)
Lemma series_patterns_are_not_trailing :
  let towers := js "Lord of the Rings: The Two Towers" in
  let menace := js "Star Wars: Episode I - The Phantom Menace" in
  (exists info, extractSeriesInfo towers = Ok info
                /\ seriesName info = Some (js "Lord of"))
  /\ seriesNameWithTrailingPatterns towers = Some towers
  /\ (exists info, extractSeriesInfo menace = Ok info
                   /\ seriesName info = Some (js "Star Wars: Episode"))
  /\ seriesNameWithTrailingPatterns menace = Some menace.
Proof.
  cbv zeta. split; [| split; [| split]].
  - eexists. split; vm_compute; reflexivity.
  - vm_compute. reflexivity.
  - eexists. split; vm_compute; reflexivity.
  - vm_compute. reflexivity.
Qed.

(** ** Retry with back-off *)

Lemma attemptsTrace_S ev w0 first count :
  attemptsTrace ev w0 first (S count)
  = [ev; EvSleep (backoff w0 first)] ++ attemptsTrace ev w0 (S first) count.
Proof. reflexivity. Qed.

Lemma attemptsTrace_snoc ev w0 first count :
  attemptsTrace ev w0 first (S count)
  = attemptsTrace ev w0 first count
    ++ [ev; EvSleep (backoff w0 (first + count))].
Proof.
  unfold attemptsTrace. rewrite seq_S, map_app, concat_app. reflexivity.
Qed.

Lemma withRetry_from_spec {A} ev (oracle : history -> result A) maxRetries w0 :
  forall remaining attempt h r h',
    (attempt + remaining = S maxRetries)%nat ->
    withRetry_from (call ev oracle) maxRetries w0 remaining attempt h = (r, h') ->
    exists k,
      (h' = h ++ attemptsTrace ev w0 attempt k ++ [ev]
       /\ (k < remaining)%nat
       /\ r = oracle (h ++ attemptsTrace ev w0 attempt k)
       /\ ((exists a, r = Ok a)
           \/ (exists e, r = Throw e /\ retryable e = false
                         /\ (attempt + k = maxRetries)%nat)))
      \/ (h' = h ++ attemptsTrace ev w0 attempt k
          /\ k = remaining
          /\ exists e, r = Throw e).
Proof.
  induction remaining as [| remaining IH]; intros attempt h r h' Hinv; cbn [withRetry_from].
  - unfold throw. intros [= <- <-]. exists 0%nat. right.
    unfold attemptsTrace. simpl. rewrite app_nil_r. eauto.
  - unfold try_catch, call at 1.
    destruct (oracle h) as [a | e] eqn:Eo.
    { intros [= <- <-]. exists 0%nat. left. unfold attemptsTrace. simpl.
      rewrite app_nil_r. repeat split; eauto; lia. }
    assert (Hretry : forall r h',
      (let* _ := sleep (backoff w0 attempt) in
       withRetry_from (call ev oracle) maxRetries w0 remaining (S attempt))
        (h ++ [ev]) = (r, h') ->
      exists k,
      (h' = h ++ attemptsTrace ev w0 attempt k ++ [ev]
       /\ (k < S remaining)%nat
       /\ r = oracle (h ++ attemptsTrace ev w0 attempt k)
       /\ ((exists a, r = Ok a)
           \/ (exists e, r = Throw e /\ retryable e = false
                         /\ (attempt + k = maxRetries)%nat)))
      \/ (h' = h ++ attemptsTrace ev w0 attempt k
          /\ k = S remaining
          /\ exists e, r = Throw e)).
    { intros r0 h0 E. unfold bind, sleep, call at 1 in E.
      apply IH in E as [k [(-> & Hk & Hr & Hres) | (-> & -> & Hres)]]; [| | lia].
      - exists (S k). left. rewrite attemptsTrace_S.
        rewrite <- !app_assoc in *. simpl in *.
        repeat split; auto; try lia.
        destruct Hres as [? | (e' & ? & ? & ?)]; [by left | right].
        exists e'. repeat split; auto; lia.
      - exists (S remaining). right. rewrite attemptsTrace_S.
        rewrite <- !app_assoc. simpl. auto. }
    destruct (isRateLimit e) eqn:Erl; [cbv zeta; apply Hretry |].
    destruct (isTimeout e) eqn:Eto; [cbv zeta; apply Hretry |].
    destruct (Nat.ltb_spec attempt maxRetries) as [Hlt | Hge]; [apply Hretry |].
    unfold throw. intros [= <- <-]. exists 0%nat. left. unfold attemptsTrace. simpl.
    rewrite app_nil_r. repeat split; auto; try lia.
    right. exists e. unfold retryable. rewrite Erl, Eto. repeat split; auto; lia.
Qed.

Lemma backoff_values :
  (backoff 4400 1 == 4400 /\ backoff 4400 2 == 6600 /\ backoff 4400 3 == 9900)%Q.
Proof. repeat split; reflexivity. Qed.

Lemma backoff_power initialWaitTime n :
  (backoff initialWaitTime (S n) == initialWaitTime * 1.5 ^ Z.of_nat n)%Q.
Proof.
  unfold backoff. replace (Z.of_nat (S n) - 1) with (Z.of_nat n) by lia.
  reflexivity.
Qed.

Lemma sleeps_app h1 h2 : sleeps (h1 ++ h2) = sleeps h1 ++ sleeps h2.
Proof. unfold sleeps. apply omap_app. Qed.

Lemma sleeps_attemptsTrace ev w0 first count :
  sleeps [ev] = [] ->
  sleeps (attemptsTrace ev w0 first count) = map (backoff w0) (seq first count).
Proof.
  intros Hev. revert first. induction count as [| count IH]; intros first; [done |].
  rewrite attemptsTrace_S, sleeps_app, IH. cbn [seq map].
  change [ev; EvSleep (backoff w0 first)] with ([ev] ++ [EvSleep (backoff w0 first)]).
  rewrite sleeps_app, Hev. reflexivity.
Qed.

(** C8: with an initial wait of 4400 ms the wait after attempt [n] is
    [4400 * 1.5^(n-1)], that is 4400, 6600 and 9900 ms after attempts 1, 2
    and 3; whatever the errors are, the call is attempted at most
    [maxRetries] times with these waits in between; and when every attempt
    fails the helper throws, after exactly [maxRetries] attempts. *)
Theorem withRetry_backoff {A} (ev : event) (oracle : history -> result A)
    (maxRetries : nat) (h : history) (r : result A) (h' : history) :
  sleeps [ev] = [] ->
  withRetry (call ev oracle) maxRetries 4400 h = (r, h') ->
  (forall n, backoff 4400 (S n) == 4400 * 1.5 ^ Z.of_nat n)%Q
  /\ (backoff 4400 1 == 4400 /\ backoff 4400 2 == 6600 /\ backoff 4400 3 == 9900)%Q
  /\ (exists k, (k <= maxRetries)%nat
        /\ sleeps h' = sleeps h ++ map (backoff 4400) (seq 1 k)
        /\ (h' = h ++ attemptsTrace ev 4400 1 k ++ [ev]
            \/ h' = h ++ attemptsTrace ev 4400 1 k))
  /\ ((forall h0, exists e, oracle h0 = Throw e) ->
      (1 <= maxRetries)%nat ->
      exists e rest,
        r = Throw e
        /\ h' = h ++ attemptsTrace ev 4400 1 (maxRetries - 1) ++ [ev] ++ rest
        /\ (rest = [] /\ retryable e = false
            \/ rest = [EvSleep (backoff 4400 maxRetries)])).
Proof.
  intros Hev E. unfold withRetry in E.
  apply withRetry_from_spec in E; [| lia].
  split; [intros n; apply backoff_power |].
  split; [apply backoff_values |].
  destruct E as [k [(-> & Hk & Hr & Hres) | (-> & -> & Hres)]].
  - split.
    + exists k. split; [lia |]. split; [| by left].
      rewrite !sleeps_app, Hev, app_nil_r, sleeps_attemptsTrace; done.
    + intros Hfail Hpos. destruct (Hfail (h ++ attemptsTrace ev 4400 1 k)) as [e He].
      rewrite He in Hr.
      destruct Hres as [(a & ->) | (e' & -> & Hnr & Hlast)]; [discriminate |].
      injection Hr as ->. exists e, []. split; [done |].
      replace (maxRetries - 1)%nat with k by lia. rewrite app_nil_r. auto.
  - split.
    + exists maxRetries. split; [lia |]. split; [| by right].
      rewrite !sleeps_app, sleeps_attemptsTrace; done.
    + intros _ Hpos. destruct Hres as [e ->].
      exists e, [EvSleep (backoff 4400 maxRetries)]. split; [done |].
      split; [| by right].
      destruct maxRetries as [| m]; [lia |].
      rewrite attemptsTrace_snoc. replace (S m - 1)%nat with m by lia.
      rewrite <- ?app_assoc. reflexivity.
Qed.

(** ** Batch skipping and completion of the ingestion *)







Section Completion.
Variable w : IngestWorld.
Variables collName contentType : string.
Variable docs : list Doc.

(** The store answers every page request with the page of [docs]. *)
Hypothesis fetch_ok : forall h skip,
  find_page w h collName skip BATCH_SIZE = Ok (take BATCH_SIZE (drop skip docs)).

(** Every document of the collection has an [_id] and a text. *)
Hypothesis build_ok :
  Forall (fun doc => exists d, toDocument w collName doc = Ok d) docs.





End Completion.





(** ** Further properties of the recommendation code *)

Section JaccardFacts.
Context {A : Type} `{Countable A}.

Lemma intersectionCount_inter (set1 set2 : gset A) :
  intersectionCount set1 set2 = size (set1 ∩ set2).
Proof.
  unfold intersectionCount. f_equal. apply set_eq. intros x.
  rewrite elem_of_filter, elem_of_intersection. tauto.
Qed.

Lemma intersectionCount_comm (set1 set2 : gset A) :
  intersectionCount set1 set2 = intersectionCount set2 set1.
Proof.
  rewrite !intersectionCount_inter. f_equal. apply set_eq. intros x.
  rewrite !elem_of_intersection. tauto.
Qed.

Lemma intersectionCount_self (set1 : gset A) :
  intersectionCount set1 set1 = size set1.
Proof.
  rewrite intersectionCount_inter. f_equal. apply set_eq. intros x.
  rewrite elem_of_intersection. tauto.
Qed.

Lemma compareArrays_comm (array1 array2 : list A) :
  compareArrays array1 array2 = compareArrays array2 array1.
Proof.
  unfold compareArrays. rewrite orb_comm.
  destruct ((length array2 =? 0)%nat || (length array1 =? 0)%nat); [reflexivity |].
  cbv zeta. rewrite (intersectionCount_comm (list_to_set array1)).
  rewrite (Z.add_comm (Z.of_nat (size (list_to_set array1 : gset A)))).
  reflexivity.
Qed.

Lemma list_to_set_size_pos (array : list A) :
  array <> [] -> (0 < size (list_to_set array : gset A))%nat.
Proof.
  destruct array as [| x array]; [done |]. intros _.
  assert (Hne : size (list_to_set (x :: array) : gset A) <> 0%nat).
  { apply size_non_empty_iff. intros Hempty.
    apply (not_elem_of_empty (C := gset A) x). rewrite <- Hempty.
    apply elem_of_list_to_set. left. }
  lia.
Qed.

(** X2: the overlap of two arrays does not depend on which of them comes
    first, and the overlap of a non-empty array with itself is 1. *)
Theorem compareArrays_symmetric_reflexive (array1 array2 : list A) :
  compareArrays array1 array2 = compareArrays array2 array1
  /\ (array1 <> [] -> compareArrays array1 array1 == 1)%Q.
Proof.
  split; [apply compareArrays_comm |].
  intros Hne. unfold compareArrays.
  assert (Hlen : (length array1 =? 0)%nat = false)
    by (destruct array1; [done | reflexivity]).
  rewrite Hlen. cbn [orb]. cbv zeta.
  rewrite intersectionCount_self.
  pose proof (list_to_set_size_pos array1 Hne) as Hpos.
  set (s := size (list_to_set array1 : gset A)) in *.
  replace (Z.of_nat s + Z.of_nat s - Z.of_nat s) with (Z.of_nat s) by lia.
  destruct (Z.eqb_spec (Z.of_nat s) 0) as [Hz | Hnz]; [lia |].
  apply Qmult_inv_r. intros Hq.
  unfold Qeq in Hq. simpl in Hq. lia.
Qed.

(** X3: only the sets of values matter: repeating or reordering the
    elements of either array leaves the overlap unchanged. *)
Theorem compareArrays_only_sets (array1 array1' array2 array2' : list A) :
  (forall x, x ∈ array1 <-> x ∈ array1') ->
  (forall x, x ∈ array2 <-> x ∈ array2') ->
  compareArrays array1 array2 = compareArrays array1' array2'.
Proof.
  intros H1 H2.
  assert (Hset : forall (l l' : list A), (forall x, x ∈ l <-> x ∈ l') ->
            (list_to_set l : gset A) = list_to_set l'
            /\ (length l =? 0)%nat = (length l' =? 0)%nat).
  { intros l l' Hl. split.
    - apply set_eq. intros x. rewrite !elem_of_list_to_set. apply Hl.
    - destruct l as [| a l], l' as [| a' l']; try reflexivity.
      + exfalso. eapply not_elem_of_nil. apply Hl. left.
      + exfalso. eapply not_elem_of_nil. apply Hl. left. }
  destruct (Hset _ _ H1) as [Hs1 He1], (Hset _ _ H2) as [Hs2 He2].
  unfold compareArrays. rewrite He1, He2, Hs1, Hs2. reflexivity.
Qed.
End JaccardFacts.

(** X4: the similarity score does not depend on which of the two items is
    the consumed one. *)
Theorem calculateMetadataSimilarity_symmetric (content1 content2 : Doc)
    (contentType : string) :
  calculateMetadataSimilarity content1 content2 contentType
  = calculateMetadataSimilarity content2 content1 contentType.
Proof.
  unfold calculateMetadataSimilarity. cbv zeta.
  repeat match goal with
  | |- context [compareArrays (?f content1) (?g content2)] =>
      rewrite (compareArrays_comm (f content1) (g content2))
  | |- context [compareArrays (?f (?f' content1)) (?g (?g' content2))] =>
      rewrite (compareArrays_comm (f (f' content1)) (g (g' content2)))
  | |- context [compareArrays (?f (?f' (?f'' content1))) (?g (?g' (?g'' content2)))] =>
      rewrite (compareArrays_comm (f (f' (f'' content1))) (g (g' (g'' content2))))
  end.
  reflexivity.
Qed.

Lemma seasonToken_numberToken s :
  seasonToken s ->
  exists sep word s2, s = sep ++ word ++ s2 /\ numberToken s2.
Proof.
  intros (sep & s1 & -> & _ & word & s2 & -> & _ & Hnum).
  by exists sep, word, s2.
Qed.

Lemma recognised_named title info :
  recognised numberToken title ->
  extractSeriesInfo title = Ok info ->
  namedBy numberToken title (seriesName info).
Proof.
  intros Hrec E.
  destruct (extractSeriesInfo_spec title) as (info' & E' & Hid).
  rewrite E in E'. injection E' as <-.
  destruct Hid as [H | [[Hn _] | [[Hn _] | [Hn _]]]]; done.
Qed.

(** X5: on a title without a line terminator the Season/Part/Chapter
    pattern never decides: where it matches, the number pattern matches as
    well and comes first, so the series name is what precedes the number,
    the word [Season] included. *)
Theorem season_pattern_never_decides (title_ : jsstring) :
  Forall (fun c => c ∉ lineTerminators) title_ ->
  str_match title_ seasonPattern <> None ->
  str_match title_ numberPattern <> None
  /\ exists info, extractSeriesInfo title_ = Ok info
                  /\ namedBy numberToken title_ (seriesName info).
Proof.
  intros Hline Hseason.
  assert (Hrec : recognised numberToken title_).
  { pose proof (seasonPattern_match title_) as Hs.
    destruct (str_match title_ seasonPattern) as [m |]; [| done].
    destruct Hs as (g & _ & (s & E & Hg & Htok) & _).
    apply seasonToken_numberToken in Htok as (sep & word & s2 & -> & Hnum).
    exists (g ++ sep ++ word), s2. split; [by rewrite <- !app_assoc |].
    split; [| done].
    rewrite E in Hline. repeat setoid_rewrite Forall_app in Hline.
    rewrite !Forall_app. tauto. }
  split.
  - pose proof (numberPattern_match title_) as Hn.
    by destruct (str_match title_ numberPattern).
  - destruct (extractSeriesInfo_spec title_) as (info & E & _).
    exists info. split; [done |]. by apply recognised_named.
Qed.

Lemma isTrimOf_within g name :
  isTrimOf g name -> exists l r, g = l ++ name ++ r.
Proof. intros (l & r & E & _). eauto. Qed.

(** X6: a series name is a part of the title it comes from, so that the
    title query built from it finds the item itself, which the query
    excludes by its [_id]. *)
Theorem series_name_within_title (title_ : jsstring) (info : SeriesInfo)
    (name : jsstring) :
  extractSeriesInfo title_ = Ok info ->
  seriesName info = Some name ->
  exists l r, title_ = l ++ name ++ r.
Proof.
  intros E Hname.
  destruct (extractSeriesInfo_spec title_) as (info' & E' & Hid).
  rewrite E in E'. injection E' as <-. rewrite Hname in Hid.
  assert (Hnamed : forall token, namedBy token title_ (Some name) ->
                                 exists l r, title_ = l ++ name ++ r).
  { intros token (g & n & [(s & Et & _) _] & Htrim & [= <-]).
    apply isTrimOf_within in Htrim as (l & r & ->).
    exists l, (r ++ s). by rewrite Et, <- !app_assoc. }
  destruct Hid as [H | [[_ H] | [(_ & _ & H) | (_ & _ & _ & H)]]]; eauto.
  destruct H as [[_ [= <-]] | [_ [=]]].
  exists [], []. by rewrite app_nil_r.
Qed.




Lemma List_filter_sublist {A} (p : A -> bool) (l : list A) :
  List.filter p l `sublist_of` l.
Proof.
  induction l as [| x l IH]; simpl; [constructor |].
  destruct (p x); by constructor.
Qed.

(** X8: [recommendById] keeps the ranking of the vector index: the ids it
    returns are, in the same order, ids of the matches of the query. *)
Theorem recommendById_keeps_ranking (w : World) (itemId : string) (topK : Z)
    (h : history) (res : option (list Match)) (recs : list Rec) (h' : history) :
  pinecone_query w h itemId (topK + 1) = Ok res ->
  recommendById w itemId topK h = (Ok recs, h') ->
  map rec_id recs `sublist_of` map match_id (default [] res).
Proof.
  intros Eq. unfold recommendById, try_catch, bind, call. rewrite Eq.
  set (filteredMatches := slice0 _ topK).
  destruct (getMongoDBDocs_spec w filteredMatches (h ++ [EvQuery itemId (topK + 1)]))
    as (recs' & h1 & E & S).
  rewrite E. intros [= <- <-].
  etrans; [exact S |]. apply (fmap_sublist match_id).
  etrans; [apply slice0_sublist |]. apply List_filter_sublist.
Qed.

(** ** The statements at concrete inputs *)

(** C1 (no id appears twice within a bucket) is broken by the code: for a
    user who has watched two films of one series, the third film is pushed
    as a sequel of each of them, and a film returned for both similarity
    seeds is kept twice; only a similarity candidate that repeats a sequel
    candidate is filtered out. *)
Lemma duplicate_ids_in_bucket :
  exists movies tvSeries animes games all h',
    recommendForUser rockyWorld (Value ["u1"]) 5 []
    = (Ok (Buckets movies tvSeries animes games all), h')
    /\ map rec_id movies = ["m3"; "m3"; "m4"; "m4"]
    /\ ~ NoDup (map rec_id movies).
Proof.
  eexists _, _, _, _, _, _. split; [vm_compute; reflexivity |].
  split; [reflexivity |].
  intros Hnd. apply NoDup_cons in Hnd as [Hnotin _]. apply Hnotin. left.
Qed.


Lemma similarity_score_bounds_witness :
  (calculateMetadataSimilarity rocky1 heat "anime" == 0.5)%Q.
Proof.
  apply (similarity_score_bounds rocky1 heat "anime").
  repeat constructor; unfold oneSideEmpty; simpl; auto.
Defined.

Lemma sequels_take_priority_witness :
  exists sequelRecs h1,
    findSequelsAndSeries rockyWorld [Some rocky1; Some rocky2] "movie" watched []
    = (Ok sequelRecs, h1)
    /\ map rec_id sequelRecs = ["m3"; "m3"]
    /\ getRecommendationsByType rockyWorld [Some rocky1; Some rocky2] "movie" 2
                                watched []
       = (Ok (slice0 sequelRecs 2), h1)
    /\ queries h1 = [].
Proof.
  destruct (findSequelsAndSeries rockyWorld [Some rocky1; Some rocky2] "movie"
              watched []) as [[sequelRecs | e] h1] eqn:E;
    [| vm_compute in E; discriminate].
  pose proof E as E'. vm_compute in E'. injection E' as Hrecs _.
  destruct (sequels_take_priority rockyWorld [Some rocky1; Some rocky2] "movie" 2
              watched [] sequelRecs h1 E ltac:(rewrite <- Hrecs; simpl; lia))
    as (Hres & _ & Hq & _).
  exists sequelRecs, h1. split; [reflexivity |].
  split; [rewrite <- Hrecs; reflexivity |].
  split; [exact Hres | exact Hq].
Defined.

Lemma sequel_detector_caps_witness :
  exists recs h',
    findSequelsAndSeries rockyWorld (replicate 9 (Some rocky1)) "movie" ∅ []
    = (Ok recs, h')
    /\ length recs = 10%nat
    /\ findSequelsAndSeries rockyWorld (replicate 9 (Some rocky1) ++ [Some rocky2])
                            "movie" ∅ []
       = (Ok recs, h').
Proof.
  eexists _, _. split; [vm_compute; reflexivity |].
  split; [reflexivity |].
  destruct (sequel_detector_caps rockyWorld "movie" ∅) as (_ & _ & Hstop).
  apply Hstop; [vm_compute; reflexivity | simpl; lia].
Defined.

(** A title that no pattern recognises and that is too short, and one that
    the number pattern names. *)
Lemma series_identity_priority_witness :
  seriesIdentity (js "Heat") None
  /\ (exists cmp,
        processContent rockyWorld "movies" "movie" watched (Some heat) [] []
        = (Ok ([], cmp), []))
  /\ seriesIdentity (js "Rocky II") (Some (js "Rocky")).
Proof.
  destruct (series_identity_priority (js "Heat")) as (info & E & Hid & Hnone).
  vm_compute in E. injection E as <-. split; [by apply Hid |]. split.
  - apply (Hnone rockyWorld "movies" "movie" watched heat [] []);
      [reflexivity | left; reflexivity].
  - destruct (series_identity_priority (js "Rocky II")) as (info & E & Hid' & _).
    vm_compute in E. injection E as <-. by apply Hid'.
Defined.

(** Scenario B: six matches, the queried item among them, and [topK = 5]. *)
Lemma recommendById_excludes_item_and_caps_witness :
  exists recs h',
    recommendById rockyWorld "m1" 5 [] = (Ok recs, h')
    /\ Forall (fun rec => rec_id rec <> "m1") recs
    /\ Z.of_nat (length recs) <= 5.
Proof.
  destruct (recommendById_excludes_item_and_caps rockyWorld "m1" 5 [])
    as (recs & h' & E & Hself & Hcap).
  exists recs, h'. split; [exact E |]. split; [exact Hself |]. apply Hcap. lia.
Defined.

Lemma recommendForUser_never_throws_witness :
  (exists h1, recommendForUser rockyWorld (Value ["nobody"]) 10 []
              = (Ok EmptyArray, h1))
  /\ (exists h1, recommendForUser rockyWorld Null 10 [] = (Ok EmptyArray, h1)).
Proof.
  destruct (recommendForUser_never_throws rockyWorld) as (_ & Hnull & Hthrow).
  split.
  - eexists. apply Hnull. vm_compute. reflexivity.
  - eexists. eapply Hthrow. vm_compute. reflexivity.
Defined.

Lemma withRetry_backoff_witness :
  exists e h',
    withRetry (call (EvEmbed []) (fun _ => Throw (Error "bad request") : result unit))
              3 4400 []
    = (Throw e, h')
    /\ h' = attemptsTrace (EvEmbed []) 4400 1 2 ++ [EvEmbed []].
Proof.
  destruct (withRetry (call (EvEmbed []) (fun _ => Throw (Error "bad request") : result unit))
              3 4400 []) as [r h'] eqn:E.
  destruct (withRetry_backoff (EvEmbed []) (fun _ => Throw (Error "bad request"))
              3 [] r h' eq_refl E) as (_ & _ & _ & Hfail).
  destruct (Hfail ltac:(intros; eexists; reflexivity) ltac:(lia))
    as (e & tail_ & -> & -> & Htail).
  exists e. eexists. split; [reflexivity |].
  destruct Htail as [[-> _] | ->]; [reflexivity |].
  vm_compute in E. discriminate.
Defined.


Lemma fallback_out_of_scope_witness :
  exists sequelRecs h0 h1,
    findSequelsAndSeries rockyWorld [Some rocky1; None] "movie" watched []
    = (Ok sequelRecs, h0)
    /\ map rec_id sequelRecs = ["m3"]
    /\ getRecommendationsByType rockyWorld [Some rocky1; None] "movie" 5 watched []
       = (Throw (ReferenceError "sequelRecs"), h1)
    /\ recommendationPromise rockyWorld [Some rocky1; None] "movie" 5 watched []
       = (Ok [], h1).
Proof.
  destruct (getRecommendationsByType_try rockyWorld [Some rocky1; None] "movie" 5
              watched []) as [[recs | e] h1] eqn:E;
    [vm_compute in E; discriminate |].
  destruct (fallback_out_of_scope rockyWorld [Some rocky1; None] "movie" 5
              watched [] e h1 E) as (_ & Hthrow & Hempty).
  eexists _, _, h1. split; [vm_compute; reflexivity |].
  split; [reflexivity |].
  split; [exact Hthrow | exact Hempty].
Defined.

Lemma compareArrays_only_sets_witness :
  compareArrays ["a"; "b"; "a"] ["b"; "c"] = compareArrays ["b"; "a"] ["c"; "b"; "c"].
Proof.
  apply compareArrays_only_sets; intros x; rewrite !elem_of_cons; tauto.
Defined.

Lemma compareArrays_symmetric_reflexive_witness :
  (compareArrays ["a"; "b"] ["a"; "b"] == 1)%Q.
Proof.
  apply (compareArrays_symmetric_reflexive ["a"; "b"] ["c"]). discriminate.
Defined.

Lemma season_pattern_never_decides_witness :
  exists info, extractSeriesInfo (js "Breaking Bad Season 4") = Ok info
               /\ namedBy numberToken (js "Breaking Bad Season 4") (seriesName info)
               /\ seriesName info = Some (js "Breaking Bad Season").
Proof.
  destruct (season_pattern_never_decides (js "Breaking Bad Season 4"))
    as (_ & info & E & Hnamed).
  - apply (bool_decide_unpack _). vm_compute. exact I.
  - vm_compute. discriminate.
  - exists info. split; [exact E |]. split; [exact Hnamed |].
    vm_compute in E. injection E as <-. reflexivity.
Defined.

Lemma series_name_within_title_witness :
  exists l r, js "Rocky II" = l ++ js "Rocky" ++ r.
Proof.
  apply (series_name_within_title (js "Rocky II")
           (mkSeriesInfo (Some (js "Rocky")) (Some (js "c"))));
    [vm_compute; reflexivity | reflexivity].
Defined.

Lemma recommendById_keeps_ranking_witness :
  exists recs h',
    recommendById rockyWorld "m1" 5 [] = (Ok recs, h')
    /\ map rec_id recs `sublist_of` ["m1"; "m3"; "m2"; "m4"; "g1"; "x9"].
Proof.
  destruct (recommendById rockyWorld "m1" 5 []) as [[recs | e] h'] eqn:E;
    [| vm_compute in E; discriminate].
  exists recs, h'. split; [reflexivity |].
  apply (recommendById_keeps_ranking rockyWorld "m1" 5 []
           (Some [mkMatch "m1" 1 (Some "movie"); mkMatch "m3" 0.9 (Some "movie");
                  mkMatch "m2" 0.8 (Some "movie"); mkMatch "m4" 0.7 (Some "movie");
                  mkMatch "g1" 0.6 (Some "game"); mkMatch "x9" 0.5 None])
           recs h' eq_refl E).
Defined.

(** ** Further runs of the code *)

Example series_names :
  map (fun t => match extractSeriesInfo (js t) with
                | Ok info => seriesName info
                | Throw _ => None
                end)
      ["Rocky 2"; "Breaking Bad Season 4"; "The Dark Knight"; "Final Fantasy VII";
       "Lord of the Rings: The Two Towers"; "Alien"; "Up"]
  = map (fun name => js <$> name)
      [Some "Rocky"; Some "Breaking Bad Season"; Some "The Dark Knight";
       Some "Final Fantasy"; Some "Lord of"; Some "Alien"; None].
Proof. vm_compute. reflexivity. Qed.

Example similarity_capped :
  (calculateMetadataSimilarity
     (mkDoc (Some "a") None (Some (js "A")) None None [EStr "Drama"] [] [] []
            [EObj 1 (Some "Studio")] [EObj 2 (Some "Lead")] [] [] [] [])
     (mkDoc (Some "b") None (Some (js "B")) None None [EStr "Drama"] [] [] []
            [EObj 3 (Some "Studio")] [EObj 4 (Some "Lead")] [] [] [] [])
     "movie" == 0.99)%Q.
Proof. vm_compute. reflexivity. Qed.

Example five_failures_skip_the_batch :
  fst (ingestCollection failingWorld "movies" "movie" 20 [])
  = Ok (Done (Completed (mkLoop 2 0 6)))
  /\ List.filter (fun e => match e with EvUpsert _ => true | _ => false end)
                 (snd (ingestCollection failingWorld "movies" "movie" 20 []))
     = []
  /\ length (List.filter (fun e => match e with EvEmbed _ => true | _ => false end)
                         (snd (ingestCollection failingWorld "movies" "movie" 20 [])))
     = 25%nat.
Proof. vm_compute. repeat split; reflexivity. Qed.

Example retry_waits :
  Forall2 Qeq
    (sleeps (snd (withRetry (call (EvEmbed [])
                    (fun _ => Throw (Error "request timed out") : result unit))
                    3 4400 [])))
    [4400; 6600; 9900]%Q.
Proof. vm_compute. repeat constructor. Qed.
